(** * Logo overlay service ([app.py]): shallow embedding and verified properties

    The service has one handler, [overlay_logo], which authenticates the
    request, normalises the overlay parameters, obtains the base image and the
    logo, resizes the logo relative to the base width, fades it, places it with
    [compute_position] and alpha-composites it onto a copy of the base.

    Python values are modelled as follows.
    - [int] is [Z]; [//] is [Z.div] (floor division).
    - [float] is IEEE binary64, given by the Standard Library's executable
      specification [spec_float] at precision 53 and maximal exponent 1024;
      the values a Python float can hold are the [Float.valid] ones.
    - [str] is [string], read as the sequence of its code points below 256.
    - [bytes] is [list Byte.byte].
    - An exception is a value of [exn]; a computation that may raise returns a
      [result].
    - Image objects live in a store ([heap]) and are referred to by location,
      so that in-place methods ([putalpha], [alpha_composite]) are updates of
      the store and [copy] is an allocation.
    - The pixel operations of the imaging library are an interface
      ([ImageLib]); the handler is generic in it. *)

From Stdlib Require Import ZArith Lia Ascii String Floats.SpecFloat.
From stdpp Require Import gmap strings.

Local Open Scope Z_scope.

(** ** Exceptions *)

(** The [detail] of the [HTTPException]s the service raises, by kind. *)
Inductive http_error :=
| Unauthenticated      (* "Missing Bearer token" *)
| Forbidden            (* "Invalid token" *)
| InvalidParameter     (* "position must be one of [...]" *)
| EmptyUpload          (* "Empty image upload" *)
| InvalidImageFormat   (* "Invalid image file format" *)
| RemoteFetchFailed    (* "Failed to fetch base image from URL: ..." *)
| MissingBaseImage     (* "Either 'image' file or 'image_url' must be provided" *)
| LogoNotFound.        (* "Logo not found (no url provided and no local default)" *)

Inductive exn :=
| HTTPException (status_code : Z) (detail : http_error)
| ValueError             (* int() or float() of a bad value *)
| OverflowError          (* int too large for a float, int() of an infinity *)
| ZeroDivisionError      (* float division by zero *)
| RequestException       (* requests.get, raise_for_status *)
| UnidentifiedImageError (* Image.open on bytes that are no image *)
| OSError                (* convert("RGBA") on truncated image data *)
| IsADirectoryError      (* Image.open on a path that is a directory *)
| ImagingError           (* an error raised inside the imaging library *)
| FileNotFoundError      (* Image.open on a path with no file *)
| ReferenceError.        (* a location with no object; never raised by the handler *)

Inductive result (A : Type) :=
| Ok (a : A)
| Raise (e : exn).
Arguments Ok {A} a.
Arguments Raise {A} e.

#[global] Instance http_error_eq_dec : EqDecision http_error.
Proof. solve_decision. Defined.
#[global] Instance exn_eq_dec : EqDecision exn.
Proof. solve_decision. Defined.

#[global] Instance result_ret : MRet result := @Ok.
#[global] Instance result_bind : MBind result := fun A B f r =>
  match r with
  | Ok a => f a
  | Raise e => Raise e
  end.

(** ** Python floats *)

Definition float : Type := spec_float.

Module Float.

Definition prec : Z := 53.
Definition emax : Z := 1024.

(** [float(n)] for an int [n]: rounded to nearest, ties to even;
    [OverflowError] when the rounded value is not finite. *)
Definition of_int (n : Z) : result float :=
  match binary_normalize prec emax n 0 false with
  | S754_infinity _ => Raise OverflowError
  | f => Ok f
  end.

(** [int(x)]: truncation toward zero; [ValueError] on a NaN and
    [OverflowError] on an infinity. *)
Definition to_int (x : float) : result Z :=
  match x with
  | S754_zero _ => Ok 0
  | S754_nan => Raise ValueError
  | S754_infinity _ => Raise OverflowError
  | S754_finite s m e =>
      let a := if 0 <=? e then Z.pos m * 2 ^ e else Z.pos m / 2 ^ (- e) in
      Ok (if s then - a else a)
  end.

(** The floor of a finite float, as a mathematical integer. *)
Definition floor (x : float) : option Z :=
  match x with
  | S754_zero _ => Some 0
  | S754_finite s m e =>
      Some (if 0 <=? e then (if s then - Z.pos m else Z.pos m) * 2 ^ e
            else (if s then - Z.pos m else Z.pos m) / 2 ^ (- e))
  | _ => None
  end.

Definition mul (x y : float) : float := SFmul prec emax x y.

(** [x / y] on floats raises [ZeroDivisionError] when [y] is a zero. *)
Definition div (x y : float) : result float :=
  match y with
  | S754_zero _ => Raise ZeroDivisionError
  | _ => Ok (SFdiv prec emax x y)
  end.

(** [x < y] and [x > y]: false whenever an operand is a NaN. *)
Definition ltb (x y : float) : bool :=
  match SFcompare x y with
  | Some Lt => true
  | _ => false
  end.

Definition gtb (x y : float) : bool :=
  match SFcompare x y with
  | Some Gt => true
  | _ => false
  end.

(** [x <= y], used to state that a value lies in a closed interval. *)
Definition leb (x y : float) : bool :=
  match SFcompare x y with
  | Some Lt | Some Eq => true
  | _ => false
  end.

(** The floats below zero. *)
Definition negative (x : float) : bool :=
  match x with
  | S754_finite true _ _ | S754_infinity true => true
  | _ => false
  end.

(** The zeros and the finite floats of magnitude below [2 ^ k]. *)
Definition below (k : Z) (x : float) : Prop :=
  match x with
  | S754_zero _ => True
  | S754_finite _ m e => Zdigits2 (Z.pos m) + e <= k ∧ e <= k
  | _ => False
  end.

(** The values a Python float can hold. *)
Definition valid (x : float) : Prop := valid_binary prec emax x = true.

Definition is_nan (x : float) : bool :=
  match x with
  | S754_nan => true
  | _ => false
  end.

(** The float literals of the source: the binary64 value nearest to the
    decimal, as the Python parser produces it. *)
Definition f_0_03 : float := S754_finite false 8646911284551352 (-58).
Definition f_0_05 : float := S754_finite false 7205759403792794 (-57).
Definition f_0_18 : float := S754_finite false 6485183463413514 (-55).
Definition f_0_80 : float := S754_finite false 7205759403792794 (-53).
Definition f_0_95 : float := S754_finite false 8556839292003942 (-53).
Definition f_1_0 : float := S754_finite false 4503599627370496 (-52).

(** The nearest binary64 value of the fraction [a / b], for checking the
    literals above. *)
Definition of_ratio (a b : Z) : float :=
  SFdiv prec emax (binary_normalize prec emax a 0 false)
                  (binary_normalize prec emax b 0 false).

End Float.

(** ** Python strings *)

Module Str.

(** [c.isspace()] for a code point below 256. *)
Definition isspace (c : ascii) : bool :=
  let n := Z.of_N (N_of_ascii c) in
  ((9 <=? n) && (n <=? 13)) || ((28 <=? n) && (n <=? 32))
  || (n =? 133) || (n =? 160).

(** [c.lower()] for a code point below 256. *)
Definition lower_char (c : ascii) : ascii :=
  let n := Z.of_N (N_of_ascii c) in
  if ((65 <=? n) && (n <=? 90))
     || ((192 <=? n) && (n <=? 222) && negb (n =? 215))
  then ascii_of_N (Z.to_N (n + 32))
  else c.

Fixpoint lower (s : string) : string :=
  match s with
  | EmptyString => EmptyString
  | String c s' => String (lower_char c) (lower s')
  end.

Fixpoint lstrip (s : string) : string :=
  match s with
  | EmptyString => EmptyString
  | String c s' => if isspace c then lstrip s' else s
  end.

Fixpoint rstrip (s : string) : string :=
  match s with
  | EmptyString => EmptyString
  | String c s' =>
      match rstrip s' with
      | EmptyString => if isspace c then EmptyString else String c EmptyString
      | r => String c r
      end
  end.

Definition strip (s : string) : string := rstrip (lstrip s).

(** [s.startswith(p)] *)
Definition startswith (s p : string) : bool := String.prefix p s.

Fixpoint drop (n : nat) (s : string) : string :=
  match n, s with
  | O, _ => s
  | S n', String _ s' => drop n' s'
  | S _, EmptyString => EmptyString
  end.

(** [s.replace(old, new, 1)]: the first occurrence of [old] is replaced. *)
Fixpoint replace_first (old new s : string) : string :=
  if String.prefix old s then new +:+ drop (String.length old) s
  else match s with
       | EmptyString => EmptyString
       | String c s' => String c (replace_first old new s')
       end.

(** Truth value of an optional str: [None] and the empty str are falsy. *)
Definition truthy (o : option string) : bool :=
  match o with
  | Some (String _ _) => true
  | _ => false
  end.

(** [o or default] for an optional str [o]. *)
Definition or_else (o : option string) (default : string) : string :=
  match o with
  | Some (String c s) => String c s
  | _ => default
  end.

End Str.

(** ** Pure functions of the module *)

Definition POSITIONS : gset string :=
  {[ "top_left"; "top_right"; "bottom_left"; "bottom_right"; "center" ]}%string.

Definition clamp_float (value lo hi : float) : float :=
  if Float.ltb value lo then lo
  else if Float.gtb value hi then hi
  else value.

Definition compute_position (base_w base_h logo_w logo_h : Z)
    (position : string) (margin_px : Z) : Z * Z :=
  if String.eqb position "top_left" then (margin_px, margin_px)
  else if String.eqb position "top_right" then
    (base_w - logo_w - margin_px, margin_px)
  else if String.eqb position "bottom_left" then
    (margin_px, base_h - logo_h - margin_px)
  else if String.eqb position "center" then
    ((base_w - logo_w) / 2, (base_h - logo_h) / 2)
  else (base_w - logo_w - margin_px, base_h - logo_h - margin_px).

(** Lines 123-126 of [overlay_logo]: the size the logo is resized to, from
    the base width, the clamped scale and the logo's size. *)
Definition target_logo_size (base_w : Z) (sc : float) (logo_size : Z * Z)
    : result (Z * Z) :=
  b ← Float.of_int base_w;
  t ← Float.to_int (Float.mul b sc);
  let target_logo_w := Z.max 1 t in
  n ← Float.of_int target_logo_w;
  d ← Float.of_int (fst logo_size);
  ratio ← Float.div n d;
  l ← Float.of_int (snd logo_size);
  h ← Float.to_int (Float.mul l ratio);
  let target_logo_h := Z.max 1 h in
  Ok (target_logo_w, target_logo_h).

(** ** The imaging library

    The operations of Pillow the service calls.  They are an interface: the
    properties below hold for every library with these operations.  A [None]
    stands for an exception raised inside the library. *)

Definition bytes : Type := list Byte.byte.

(** Why [Image.open(...).convert("RGBA")] yields no image: the bytes are no
    image ([UnidentifiedImageError]), or the image data stops short
    ([OSError]). *)
Inductive open_error :=
| NotAnImage
| Truncated.

Definition open_exn (k : open_error) : exn :=
  match k with
  | NotAnImage => UnidentifiedImageError
  | Truncated => OSError
  end.

Class ImageLib := {
  (** An RGBA image: size and pixel buffer. *)
  Image : Type;
  (** [Image.open(io.BytesIO(b)).convert("RGBA")] *)
  Image_open : bytes → option Image;
  (** What is wrong with bytes that [Image_open] gives no image for. *)
  Image_open_error : bytes → open_error;
  (** [im.size] *)
  Image_size : Image → Z * Z;
  (** [im.resize(size, LANCZOS)] *)
  Image_resize : Image → Z * Z → option Image;
  (** The image [im] after
      [im.putalpha(ImageEnhance.Brightness(im.split()[3]).enhance(op))]. *)
  Image_fade : Image → float → Image;
  (** The image [im] after [im.alpha_composite(overlay, dest)]. *)
  Image_alpha_composite : Image → Image → Z * Z → option Image;
  (** The bytes [im.save(out, format="PNG")] writes. *)
  Image_save_png : Image → bytes;
}.

(** ** The world outside the process *)

(** The environment variables after [os.getenv] with its default, and after
    [int()] or [float()] where the source parses them; [None] when the value
    does not parse, where [int()] and [float()] raise [ValueError]. *)
Record config := {
  RUNNER_TOKEN : string;
  DEFAULT_POSITION : string;
  DEFAULT_MARGIN_PX : option Z;
  DEFAULT_SCALE : option float;
  DEFAULT_OPACITY : option float;
  LOGO_PATH : string;
}.

Definition parsed {A} (o : option A) : result A :=
  match o with
  | Some a => Ok a
  | None => Raise ValueError
  end.

(** What [requests.get] returns when the exchange completes. *)
Record response := { status : Z; content : bytes }.

(** What a path of the local file system names. *)
Inductive entry :=
| File (data : bytes)
| Directory.

Record world := {
  env : config;
  (** The answer to a GET of a URL; an absent URL is a network failure. *)
  net : gmap string response;
  (** The local file system, by path. *)
  fs : gmap string entry;
}.

(** The form fields and the header of a POST /overlay. *)
Record request := {
  image : option bytes;
  image_url : option string;
  logo_url : option string;
  position : option string;
  margin_px : option Z;
  scale : option float;
  opacity : option float;
  authorization : option string;
}.

(** ** Store and effects *)

Definition loc : Type := nat.

Section Effects.
Context `{ImageLib}.

(** The image objects alive, and the URLs fetched so far, oldest first. *)
Record state := {
  heap : gmap loc Image;
  calls : list string;
}.

Definition M (A : Type) : Type := state → result A * state.

#[global] Instance M_ret : MRet M := fun A a s => (Ok a, s).
#[global] Instance M_bind : MBind M := fun A B f m s =>
  match m s with
  | (Ok a, s') => f a s'
  | (Raise e, s') => (Raise e, s')
  end.

Definition raise {A} (e : exn) : M A := fun s => (Raise e, s).

Definition lift {A} (r : result A) : M A := fun s => (r, s).

(** [try: body / except Exception as e: handler e] *)
Definition try_except {A} (body : M A) (handler : exn → M A) : M A := fun s =>
  match body s with
  | (Ok a, s') => (Ok a, s')
  | (Raise e, s') => handler e s'
  end.

Definition alloc (im : Image) : M loc := fun s =>
  let l := fresh (dom (heap s)) in
  (Ok l, {| heap := <[l := im]> (heap s); calls := calls s |}).

Definition get (l : loc) : M Image := fun s =>
  match heap s !! l with
  | Some im => (Ok im, s)
  | None => (Raise ReferenceError, s)
  end.

Definition set (l : loc) (im : Image) : M unit := fun s =>
  (Ok tt, {| heap := <[l := im]> (heap s); calls := calls s |}).

(** The state after one more outbound request. *)
Definition logged (url : string) (s : state) : state :=
  {| heap := heap s; calls := calls s ++ [url] |}.

(** [requests.get(url, timeout=timeout)] *)
Definition requests_get (w : world) (url : string) (timeout : Z) : M response :=
  fun s =>
    match net w !! url with
    | Some r => (Ok r, logged url s)
    | None => (Raise RequestException, logged url s)
    end.

(** [resp.raise_for_status()] *)
Definition raise_for_status (resp : response) : M unit :=
  if (400 <=? status resp) && (status resp <? 600)
  then raise RequestException
  else mret tt.

(** [Image.open(io.BytesIO(b)).convert("RGBA")] *)
Definition open_bytes (b : bytes) : M loc :=
  match Image_open b with
  | Some im => alloc im
  | None => raise (open_exn (Image_open_error b))
  end.

(** [Image.open(path).convert("RGBA")] *)
Definition open_path (w : world) (path : string) : M loc :=
  match fs w !! path with
  | Some (File b) => open_bytes b
  | Some Directory => raise IsADirectoryError
  | None => raise FileNotFoundError
  end.

(** [os.path.exists(path)] *)
Definition path_exists (w : world) (path : string) : bool :=
  bool_decide (is_Some (fs w !! path)).

(** [im.size] *)
Definition size (l : loc) : M (Z * Z) :=
  im ← get l; mret (Image_size im).

(** [im.resize(size, resample_method)]: a new image. *)
Definition resize (l : loc) (sz : Z * Z) : M loc :=
  im ← get l;
  match Image_resize im sz with
  | Some im' => alloc im'
  | None => raise ImagingError
  end.

(** [alpha = im.split()[3]; alpha = ImageEnhance.Brightness(alpha).enhance(op);
    im.putalpha(alpha)]: [im] is changed in place. *)
Definition putalpha_enhanced (l : loc) (op : float) : M unit :=
  im ← get l; set l (Image_fade im op).

(** [im.copy()] *)
Definition copy (l : loc) : M loc :=
  im ← get l; alloc im.

(** [self.alpha_composite(im, dest)]: [self] is changed in place. *)
Definition alpha_composite (self im : loc) (dest : Z * Z) : M unit :=
  a ← get self;
  b ← get im;
  match Image_alpha_composite a b dest with
  | Some r => set self r
  | None => raise ImagingError
  end.

(** [im.save(out, format="PNG"); out.getvalue()] *)
Definition save_png (l : loc) : M bytes :=
  im ← get l; mret (Image_save_png im).

(** The image a computation has returned: what is at the location it
    returned, in the state it left. *)
Definition held (x : result loc * state) : result Image :=
  match x with
  | (Ok l, s) =>
      match heap s !! l with
      | Some im => Ok im
      | None => Raise ReferenceError
      end
  | (Raise e, _) => Raise e
  end.

(** A computation that sends no request. *)
Definition keeps_calls {A} (m : M A) : Prop :=
  ∀ s, calls (snd (m s)) = calls s.

End Effects.

(** ** The service *)

Definition require_token (cfg : config) (auth : option string) : result unit :=
  let expected := RUNNER_TOKEN cfg in
  if negb (Str.truthy (Some expected)) then Ok tt
  else
    match auth with
    | Some a =>
        if negb (Str.truthy auth) || negb (Str.startswith a "Bearer ")
        then Raise (HTTPException 401 Unauthenticated)
        else
          let provided :=
            Str.strip (Str.replace_first "Bearer " EmptyString a) in
          if bool_decide (provided ≠ expected)
          then Raise (HTTPException 403 Forbidden)
          else Ok tt
    | None => Raise (HTTPException 401 Unauthenticated)
    end.

(** The overlay parameters after lines 86-98 of [overlay_logo]. *)
Record params := {
  pos : string;
  margin : Z;
  sc : float;
  op : float;
}.

(** Lines 86-98 of [overlay_logo]: defaults, the check of the position, and
    the clamps. *)
Definition overlay_params (cfg : config) (rq : request) : result params :=
  let pos :=
    Str.lower (Str.strip (Str.or_else (position rq) (DEFAULT_POSITION cfg))) in
  if bool_decide (pos ∉ POSITIONS)
  then Raise (HTTPException 400 InvalidParameter)
  else
    margin ← match margin_px rq with
             | Some m => Ok m
             | None => parsed (DEFAULT_MARGIN_PX cfg)
             end;
    let margin := if margin <? 0 then 0 else margin in
    sc ← match scale rq with
         | Some x => Ok x
         | None => parsed (DEFAULT_SCALE cfg)
         end;
    let sc := clamp_float sc Float.f_0_03 Float.f_0_80 in
    op ← match opacity rq with
         | Some x => Ok x
         | None => parsed (DEFAULT_OPACITY cfg)
         end;
    let op := clamp_float op Float.f_0_05 Float.f_1_0 in
    Ok {| pos := pos; margin := margin; sc := sc; op := op |}.

(** The body of a successful handler run: [Response(content, media_type)]. *)
Record Response := {
  body : bytes;
  media_type : string;
}.

Section Service.
Context `{ImageLib}.

(** Lines 41-43 of [load_logo]: the body of the [try]. *)
Definition load_logo_remote (w : world) (url : string) : M loc :=
  resp ← requests_get w url 10;
  raise_for_status resp;;
  open_bytes (content resp).

(** Lines 51-55 of [load_logo]: the local path. *)
Definition load_logo_local (w : world) : M loc :=
  let logo_path := LOGO_PATH (env w) in
  if path_exists w logo_path then open_path w logo_path
  else raise (HTTPException 400 LogoNotFound).

Definition load_logo (w : world) (logo_url : option string) : M loc :=
  match logo_url with
  | Some url =>
      if Str.truthy logo_url
      then try_except (load_logo_remote w url) (fun _ => load_logo_local w)
      else load_logo_local w
  | None => load_logo_local w
  end.

(** Lines 101-118 of [overlay_logo]: the base image. *)
Definition overlay_base (w : world) (rq : request) : M loc :=
  match image rq with
  | Some raw =>
      match raw with
      | [] => raise (HTTPException 400 EmptyUpload)
      | _ =>
          try_except (open_bytes raw)
            (fun _ => raise (HTTPException 400 InvalidImageFormat))
      end
  | None =>
      match image_url rq with
      | Some url =>
          if Str.truthy (image_url rq)
          then
            try_except
              (resp ← requests_get w url 15;
               raise_for_status resp;;
               open_bytes (content resp))
              (fun _ => raise (HTTPException 400 RemoteFetchFailed))
          else raise (HTTPException 400 MissingBaseImage)
      | None => raise (HTTPException 400 MissingBaseImage)
      end
  end.

(** Lines 143-144 of [overlay_logo]: the composite, on a copy of the base. *)
Definition overlay_composite (base logo : loc) (xy : Z * Z) : M loc :=
  composed ← copy base;
  alpha_composite composed logo xy;;
  mret composed.

(** Lines 123-151 of [overlay_logo]: resize, fade, place, composite, encode. *)
Definition overlay_compose (p : params) (base logo : loc) : M bytes :=
  '(base_w, base_h) ← size base;
  logo_size ← size logo;
  '(target_logo_w, target_logo_h) ←
    lift (target_logo_size base_w (sc p) logo_size);
  logo ← resize logo (target_logo_w, target_logo_h);
  (if Float.ltb (op p) Float.f_1_0 then putalpha_enhanced logo (op p)
   else mret tt);;
  '(logo_w, logo_h) ← size logo;
  let xy := compute_position base_w base_h logo_w logo_h (pos p) (margin p) in
  composed ← overlay_composite base logo xy;
  save_png composed.

Definition overlay_logo (w : world) (rq : request) : M Response :=
  lift (require_token (env w) (authorization rq));;
  p ← lift (overlay_params (env w) rq);
  base ← overlay_base w rq;
  logo ← load_logo w (logo_url rq);
  png_bytes ← overlay_compose p base logo;
  mret {| body := png_bytes; media_type := "image/png" |}.

(** *** What a run computes, without the store

    The same steps on image values; the handler is shown below to return
    exactly this, from every store. *)

(** The computation that allocates the image [r] holds, or raises what [r]
    raises. *)
Definition returning (r : result Image) : M loc :=
  match r with
  | Ok im => alloc im
  | Raise e => raise e
  end.

Definition decode (b : bytes) : result Image :=
  match Image_open b with
  | Some im => Ok im
  | None => Raise (open_exn (Image_open_error b))
  end.

Definition fetched (w : world) (url : string) : result Image :=
  match net w !! url with
  | Some resp =>
      if (400 <=? status resp) && (status resp <? 600)
      then Raise RequestException
      else decode (content resp)
  | None => Raise RequestException
  end.

Definition local_logo (w : world) : result Image :=
  match fs w !! LOGO_PATH (env w) with
  | Some (File b) => decode b
  | Some Directory => Raise IsADirectoryError
  | None => Raise (HTTPException 400 LogoNotFound)
  end.

Definition resolved_logo (w : world) (logo_url : option string)
    : result Image :=
  match logo_url with
  | Some (String c u) =>
      match fetched w (String c u) with
      | Ok im => Ok im
      | Raise _ => local_logo w
      end
  | _ => local_logo w
  end.

Definition resolved_base (w : world) (rq : request) : result Image :=
  match image rq with
  | Some [] => Raise (HTTPException 400 EmptyUpload)
  | Some raw =>
      match decode raw with
      | Ok im => Ok im
      | Raise _ => Raise (HTTPException 400 InvalidImageFormat)
      end
  | None =>
      match image_url rq with
      | Some (String c u) =>
          match fetched w (String c u) with
          | Ok im => Ok im
          | Raise _ => Raise (HTTPException 400 RemoteFetchFailed)
          end
      | _ => Raise (HTTPException 400 MissingBaseImage)
      end
  end.

Definition composed_png (p : params) (base logo : Image) : result bytes :=
  '(target_logo_w, target_logo_h) ←
    target_logo_size (fst (Image_size base)) (sc p) (Image_size logo);
  match Image_resize logo (target_logo_w, target_logo_h) with
  | None => Raise ImagingError
  | Some logo =>
      let logo :=
        if Float.ltb (op p) Float.f_1_0 then Image_fade logo (op p)
        else logo in
      let xy :=
        compute_position (fst (Image_size base)) (snd (Image_size base))
          (fst (Image_size logo)) (snd (Image_size logo))
          (pos p) (margin p) in
      match Image_alpha_composite base logo xy with
      | None => Raise ImagingError
      | Some composed => Ok (Image_save_png composed)
      end
  end.

(** The URLs a run fetches: the image URL when there is no upload, and the
    logo URL; an empty URL is none. *)
Definition base_urls (rq : request) : list string :=
  match image rq, image_url rq with
  | None, Some (String c u) => [String c u]
  | _, _ => []
  end.

Definition logo_urls (rq : request) : list string :=
  match logo_url rq with
  | Some (String c u) => [String c u]
  | _ => []
  end.

(** No image comes from the URL: none is given, or the [try] of [load_logo]
    raises. *)
Definition remote_logo_fails (w : world) (logo_url : option string)
    (s : state) : Prop :=
  ∀ url, logo_url = Some url → Str.truthy logo_url = true →
    ∃ e, fst (load_logo_remote w url s) = Raise e.

Definition overlay_result (w : world) (rq : request) : result Response :=
  require_token (env w) (authorization rq);;
  p ← overlay_params (env w) rq;
  base ← resolved_base w rq;
  logo ← resolved_logo w (logo_url rq);
  png_bytes ← composed_png p base logo;
  Ok {| body := png_bytes; media_type := "image/png" |}.

End Service.

(** ** A small imaging library, for running the handler on examples

    An image is its size and a list of pixel bytes.  The encoded form is the
    magic byte [x89], a width byte, a height byte, then the pixels; anything
    else does not decode: bytes that start with the magic byte are a
    truncated image, other bytes are no image.  Resizing needs a positive
    size, as in Pillow. *)

Module TestLib.

Record img := {
  width : Z;
  height : Z;
  pixels : bytes;
}.

Definition byte_of_Z (n : Z) : Byte.byte :=
  match Byte.of_N (Z.to_N (n mod 256)) with
  | Some b => b
  | None => Byte.x00
  end.

Definition Z_of_byte (b : Byte.byte) : Z := Z.of_N (Byte.to_N b).

Definition open (b : bytes) : option img :=
  match b with
  | Byte.x89 :: w :: h :: px =>
      Some {| width := Z_of_byte w; height := Z_of_byte h; pixels := px |}
  | _ => None
  end.

Definition open_error_of (b : bytes) : open_error :=
  match b with
  | Byte.x89 :: _ => Truncated
  | _ => NotAnImage
  end.

Definition resized (im : img) (sz : Z * Z) : option img :=
  if (0 <? fst sz) && (0 <? snd sz)
  then Some {| width := fst sz; height := snd sz; pixels := pixels im |}
  else None.

Definition faded (im : img) (op : float) : img :=
  {| width := width im; height := height im;
     pixels := Byte.x01 :: pixels im |}.

Definition composited (im overlay : img) (dest : Z * Z) : option img :=
  Some {| width := width im; height := height im;
          pixels := pixels im ++ byte_of_Z (fst dest) :: byte_of_Z (snd dest)
                      :: pixels overlay |}.

Definition saved (im : img) : bytes :=
  Byte.x89 :: byte_of_Z (width im) :: byte_of_Z (height im) :: pixels im.

#[global] Instance lib : ImageLib := {|
  Image := img;
  Image_open := open;
  Image_open_error := open_error_of;
  Image_size := fun im => (width im, height im);
  Image_resize := resized;
  Image_fade := faded;
  Image_alpha_composite := composited;
  Image_save_png := saved;
|}.

(** The environment with no variable set. *)
Definition default_config : config := {|
  RUNNER_TOKEN := EmptyString;
  DEFAULT_POSITION := "bottom_right";
  DEFAULT_MARGIN_PX := Some 24;
  DEFAULT_SCALE := Some Float.f_0_18;
  DEFAULT_OPACITY := Some Float.f_0_95;
  LOGO_PATH := "/app/assets/logo.png";
|}.

(** A 200 x 100 base image and a 20 x 10 logo, encoded. *)
Definition base_png : bytes :=
  [Byte.x89; byte_of_Z 200; byte_of_Z 100; Byte.x10; Byte.x20].
Definition logo_png : bytes :=
  [Byte.x89; byte_of_Z 20; byte_of_Z 10; Byte.x30].

(** Bytes that are no image. *)
Definition garbage : bytes := [Byte.x00; Byte.x01].

Definition world_with_logo : world := {|
  env := default_config;
  net := ∅;
  fs := {[ "/app/assets/logo.png"%string := File logo_png ]};
|}.

(** A world where the base and the logo are served, and one URL answers
    404. *)
Definition world_online : world := {|
  env := default_config;
  net := {[ "http://host/base.png"%string
              := {| status := 200; content := base_png |};
            "http://cdn/logo.png"%string
              := {| status := 200; content := logo_png |};
            "http://cdn/gone.png"%string
              := {| status := 404; content := logo_png |} ]};
  fs := ∅;
|}.

Definition world_no_logo : world := {|
  env := default_config;
  net := ∅;
  fs := ∅;
|}.

Definition world_bad_logo : world := {|
  env := default_config;
  net := ∅;
  fs := {[ "/app/assets/logo.png"%string := File garbage ]};
|}.

Definition upload : request := {|
  image := Some base_png;
  image_url := None;
  logo_url := None;
  position := None;
  margin_px := None;
  scale := None;
  opacity := None;
  authorization := None;
|}.

Definition empty_state : state := {| heap := ∅; calls := [] |}.

Definition base_img : img :=
  {| width := 200; height := 100; pixels := [Byte.x10; Byte.x20] |}.
Definition logo_img : img :=
  {| width := 20; height := 10; pixels := [Byte.x30] |}.

(** A store with a base image at location 0 and a logo at location 1. *)
Definition two_images : state :=
  {| heap := {[ 0%nat := base_img; 1%nat := logo_img ]}; calls := [] |}.

End TestLib.

(** ** The rounding the specification names

    [nearest_integer n num den]: the integer [n] is at distance at most one
    half from the fraction [num / den], for a positive [den].  This is what
    "round" means whichever way ties go. *)
Definition nearest_integer (n num den : Z) : Prop :=
  2 * Z.abs (n * den - num) <= den.

(** * Properties *)

(** ** Floats *)

Section FloatFacts.
Import Float.

Lemma literals_nearest :
  f_0_03 = of_ratio 3 100 ∧ f_0_05 = of_ratio 5 100 ∧ f_0_18 = of_ratio 18 100
  ∧ f_0_80 = of_ratio 80 100 ∧ f_0_95 = of_ratio 95 100
  ∧ f_1_0 = of_ratio 1 1.
Proof. vm_compute. repeat split. Qed.

Lemma literals_valid :
  valid f_0_03 ∧ valid f_0_05 ∧ valid f_0_18 ∧ valid f_0_80 ∧ valid f_0_95
  ∧ valid f_1_0.
Proof. repeat split. Qed.

(** A clamp between valid bounds returns a valid float on a valid float. *)
Lemma clamp_float_valid (value lo hi : float) :
  valid value → valid lo → valid hi → valid (clamp_float value lo hi).
Proof.
  intros Hv Hlo Hhi. unfold clamp_float.
  destruct (ltb value lo); [exact Hlo|].
  destruct (gtb value hi); [exact Hhi|exact Hv].
Qed.

Ltac compare_cases :=
  repeat match goal with
    | H : context [Pos.compare_cont Eq ?a ?b] |- _ =>
        change (Pos.compare_cont Eq a b) with (Pos.compare a b) in H
    | |- context [Pos.compare_cont Eq ?a ?b] =>
        change (Pos.compare_cont Eq a b) with (Pos.compare a b)
    | H : context [Z.compare ?a ?b] |- _ =>
        destruct (Z.compare_spec a b); simpl in H
    | H : context [Pos.compare ?a ?b] |- _ =>
        destruct (Pos.compare_spec a b); simpl in H
    | |- context [Z.compare ?a ?b] => destruct (Z.compare_spec a b); simpl
    | |- context [Pos.compare ?a ?b] => destruct (Pos.compare_spec a b); simpl
    end;
  try discriminate; try reflexivity; try lia.

Lemma compare_antisym (x y : float) c :
  SFcompare x y = Some c → SFcompare y x = Some (CompOpp c).
Proof.
  destruct x as [sx|sx| |sx mx ex], y as [sy|sy| |sy my ey]; simpl;
    intros Hc; try discriminate; injection Hc as <-;
    try (destruct sx; reflexivity); try (destruct sy; reflexivity);
    try (destruct sx, sy; reflexivity).
  destruct sx, sy; try reflexivity; f_equal; compare_cases.
Qed.

Lemma compare_refl (x : float) : is_nan x = false → SFcompare x x = Some Eq.
Proof.
  destruct x as [s|s| |s m e]; simpl; try discriminate; intros _;
    try (destruct s; reflexivity).
  destruct s; rewrite Z.compare_refl, Pos.compare_cont_refl; reflexivity.
Qed.

Lemma compare_total (x y : float) :
  is_nan x = false → is_nan y = false → ∃ c, SFcompare x y = Some c.
Proof.
  destruct x, y; simpl; try discriminate; eauto.
Qed.

Lemma leb_not_nan (x y : float) :
  leb x y = true → is_nan x = false ∧ is_nan y = false.
Proof. destruct x, y; simpl; try discriminate; auto. Qed.

(** [clamp_float] returns a value of the closed interval, for every value
    that is not a NaN. *)
Lemma clamp_float_in_range (value lo hi : float) :
  is_nan value = false → leb lo hi = true →
  leb lo (clamp_float value lo hi) = true
  ∧ leb (clamp_float value lo hi) hi = true.
Proof.
  intros Hv Hlh. destruct (leb_not_nan _ _ Hlh) as [Hlo Hhi].
  unfold clamp_float, ltb, gtb.
  destruct (compare_total value lo Hv Hlo) as [c1 H1].
  destruct (compare_total value hi Hv Hhi) as [c2 H2].
  rewrite H1, H2.
  pose proof (compare_antisym _ _ _ H1) as H1'.
  destruct c1; simpl in H1'.
  - destruct c2; unfold leb; rewrite ?H1', ?H2, ?Hlh, ?compare_refl; auto.
  - unfold leb. rewrite compare_refl by done. fold (leb lo hi). auto.
  - destruct c2; unfold leb; rewrite ?H1', ?H2, ?Hlh, ?compare_refl; auto.
Qed.

(** A value of the interval is returned as it is. *)
Lemma clamp_float_id (value lo hi : float) :
  leb lo value = true → leb value hi = true → clamp_float value lo hi = value.
Proof.
  unfold leb, clamp_float, ltb, gtb. intros H1 H2.
  destruct (SFcompare lo value) as [c|] eqn:Hc; [|discriminate].
  rewrite (compare_antisym _ _ _ Hc).
  destruct c; try discriminate; simpl;
    destruct (SFcompare value hi) as [[]|]; try discriminate; reflexivity.
Qed.

Lemma clamp_float_below (value lo hi : float) :
  ltb value lo = true → clamp_float value lo hi = lo.
Proof. unfold clamp_float. intros ->. reflexivity. Qed.

Lemma ltb_gtb_excluded (value lo hi : float) :
  leb lo hi = true → gtb value hi = true → ltb value lo = false.
Proof.
  unfold ltb, gtb, leb.
  destruct value as [s|s| |s m e], lo as [sl|sl| |sl ml el],
    hi as [sh|sh| |sh mh eh]; simpl; try discriminate; try reflexivity;
    repeat match goal with
      | b : bool |- _ => destruct b
      end; simpl; try discriminate; try reflexivity;
    intros H1 H2; compare_cases.
Qed.

Lemma clamp_float_above (value lo hi : float) :
  leb lo hi = true → gtb value hi = true → clamp_float value lo hi = hi.
Proof.
  intros Hlh Hg. unfold clamp_float.
  rewrite (ltb_gtb_excluded _ _ _ Hlh Hg), Hg. reflexivity.
Qed.

(** Rounding keeps the sign it is given. *)
Lemma binary_round_aux_sign s m e l :
  negative (binary_round_aux prec emax s m e l) = true → s = true.
Proof.
  unfold binary_round_aux.
  destruct (shr_fexp prec emax m e l) as [mrs' e'].
  destruct (shr_fexp prec emax _ e' loc_Exact) as [mrs'' e''].
  destruct (shr_m mrs''); simpl; try discriminate.
  destruct (e'' <=? emax - prec); destruct s; done.
Qed.

Lemma of_int_nonneg n f : 0 <= n → of_int n = Ok f → negative f = false.
Proof.
  intros Hn. unfold of_int, binary_normalize.
  destruct n as [|p|p]; [| |lia].
  - intros [= <-]. reflexivity.
  - unfold binary_round. destruct (shl_align p 0 _) as [mz ez].
    pose proof (binary_round_aux_sign false (Z.pos mz) ez loc_Exact) as Hs.
    destruct (binary_round_aux _ _ _ _ _ _) as [s|s| |s m e];
      try discriminate; intros [= <-]; simpl in *; try reflexivity;
      destruct s; try reflexivity; discriminate (Hs eq_refl).
Qed.

Lemma mul_nonneg x y :
  negative x = false → negative y = false → negative (mul x y) = false.
Proof.
  destruct x as [sx|sx| |sx mx ex], y as [sy|sy| |sy my ey]; simpl;
    try reflexivity; try discriminate;
    try (destruct sx; try discriminate); try (destruct sy; try discriminate);
    try reflexivity.
  intros _ _. destruct (negative _) eqn:Hn; [|reflexivity].
  apply binary_round_aux_sign in Hn. discriminate.
Qed.

Lemma div_nonneg x y r :
  negative x = false → negative y = false → div x y = Ok r →
  negative r = false.
Proof.
  unfold div.
  destruct x as [sx|sx| |sx mx ex], y as [sy|sy| |sy my ey]; simpl;
    try discriminate; intros Hx Hy [= <-]; try reflexivity;
    try (destruct sx; try discriminate); try (destruct sy; try discriminate);
    try reflexivity.
  destruct (SFdiv_core_binary _ _ _ _ _ _) as [[mz ez] lz].
  destruct (negative _) eqn:Hn; [|reflexivity].
  apply binary_round_aux_sign in Hn. discriminate.
Qed.

(** On a float that is not below zero, [int()] is the floor. *)
Lemma to_int_floor x t :
  negative x = false → to_int x = Ok t → floor x = Some t.
Proof.
  destruct x as [s|s| |s m e]; simpl; try discriminate.
  - intros _ [= <-]. reflexivity.
  - destruct s; [discriminate|]. intros _ [= <-]. reflexivity.
Qed.

End FloatFacts.

Section FloatRange.
Import Float.

Lemma Zdigits2_log2 p : Zdigits2 (Z.pos p) = Z.log2 (Z.pos p) + 1.
Proof.
  assert (∀ q, Z.pos (digits2_pos q) = Z.pos (Pos.size q)) as Hs.
  { induction q as [q IH|q IH|]; simpl; try reflexivity;
      rewrite !Pos2Z.inj_succ, IH; reflexivity. }
  simpl. rewrite Hs. destruct p; simpl; lia.
Qed.

Lemma Zdigits2_nonneg m : 0 <= Zdigits2 m.
Proof. destruct m; simpl; lia. Qed.

Lemma Zdigits2_gt m : 0 <= m → m < 2 ^ Zdigits2 m.
Proof.
  intros Hm. destruct m as [|p|p]; [simpl; lia| |lia].
  rewrite Zdigits2_log2. apply Z.log2_spec. lia.
Qed.

Lemma Zdigits2_le m d : 0 <= m → 0 <= d → m < 2 ^ d → Zdigits2 m <= d.
Proof.
  intros Hm Hd Hlt. destruct m as [|p|p]; [simpl; lia| |lia].
  rewrite Zdigits2_log2. apply Z.log2_lt_pow2 in Hlt; lia.
Qed.

Lemma Zdigits2_mono a b : 0 <= a <= b → Zdigits2 a <= Zdigits2 b.
Proof.
  intros [Ha Hab]. apply Zdigits2_le; [lia|apply Zdigits2_nonneg|].
  pose proof (Zdigits2_gt b ltac:(lia)). lia.
Qed.

Lemma Zdigits2_succ m : 0 <= m → Zdigits2 (m + 1) <= Zdigits2 m + 1.
Proof.
  intros Hm. pose proof (Zdigits2_nonneg m). pose proof (Zdigits2_gt m Hm).
  apply Zdigits2_le; [lia|lia|]. rewrite Z.pow_add_r by lia. lia.
Qed.

Lemma Zdigits2_mul a b :
  0 <= a → 0 <= b → Zdigits2 (a * b) <= Zdigits2 a + Zdigits2 b.
Proof.
  intros Ha Hb.
  pose proof (Zdigits2_nonneg a). pose proof (Zdigits2_nonneg b).
  pose proof (Zdigits2_gt a Ha). pose proof (Zdigits2_gt b Hb).
  apply Zdigits2_le; [nia|lia|]. rewrite Z.pow_add_r by lia. nia.
Qed.

Lemma Zdigits2_div a n :
  0 <= a → 0 <= n → Zdigits2 (a / 2 ^ n) <= Z.max 0 (Zdigits2 a - n).
Proof.
  intros Ha Hn. pose proof (Zdigits2_nonneg a) as Hd.
  pose proof (Zdigits2_gt a Ha) as Hlt.
  assert (0 < 2 ^ n) by (apply Z.pow_pos_nonneg; lia).
  apply Zdigits2_le; [apply Z.div_pos; lia|lia|].
  apply Z.div_lt_upper_bound; [lia|].
  rewrite <- Z.pow_add_r by lia.
  eapply Z.lt_le_trans; [exact Hlt|]. apply Z.pow_le_mono_r; lia.
Qed.

(** Shifting a rounding record right by [p] bits divides its mantissa. *)
Lemma shr_1_m mrs : 0 <= shr_m mrs → shr_m (shr_1 mrs) = shr_m mrs / 2.
Proof.
  destruct mrs as [m r s]. simpl. intros Hm.
  destruct m as [|[q|q|]|q]; try lia; simpl; try reflexivity.
  - rewrite Pos2Z.inj_xI. apply Z.div_unique with 1; lia.
  - rewrite Pos2Z.inj_xO. apply Z.div_unique with 0; lia.
Qed.

Lemma iter_shr_1_m p : ∀ mrs,
  0 <= shr_m mrs →
  shr_m (SpecFloat.iter_pos shr_1 p mrs) = shr_m mrs / 2 ^ Z.pos p.
Proof.
  assert (∀ m, 0 <= m → 0 <= m / 2) as Hhalf
    by (intros; apply Z.div_pos; lia).
  assert (∀ m k, 0 <= m → 0 <= m / 2 ^ Z.pos k) as Hpow
    by (intros; apply Z.div_pos; [lia|apply Z.pow_pos_nonneg; lia]).
  induction p as [p IH|p IH|]; intros mrs Hm; simpl SpecFloat.iter_pos.
  - pose proof (shr_1_m mrs Hm) as H1.
    pose proof (IH (shr_1 mrs) ltac:(rewrite H1; auto)) as H2.
    rewrite IH by (rewrite H2, H1; auto).
    rewrite H2, H1.
    rewrite !Z.div_div by (try apply Z.pow_pos_nonneg; lia).
    f_equal. rewrite Pos2Z.inj_xI, <- Z.pow_add_r, <- Z.pow_succ_r by lia.
    f_equal. lia.
  - pose proof (IH mrs Hm) as H2.
    rewrite IH by (rewrite H2; auto).
    rewrite H2.
    rewrite !Z.div_div by (try apply Z.pow_pos_nonneg; lia).
    f_equal. rewrite Pos2Z.inj_xO, <- Z.pow_add_r by lia. f_equal. lia.
  - rewrite shr_1_m by assumption. reflexivity.
Qed.

Lemma shr_record_of_loc_m m l : shr_m (shr_record_of_loc m l) = m.
Proof. destruct l as [|[]]; reflexivity. Qed.

Lemma fexp_eq e : fexp prec emax e = Z.max (e - 53) (-1074).
Proof. reflexivity. Qed.

(** One rounding shift keeps a mantissa that is not negative and a
    magnitude below [2 ^ k]. *)
Lemma shr_fexp_below m e l k :
  0 <= m → Zdigits2 m + e <= k → e <= k → -1074 <= k →
  0 <= shr_m (fst (shr_fexp prec emax m e l))
  ∧ Zdigits2 (shr_m (fst (shr_fexp prec emax m e l)))
    + snd (shr_fexp prec emax m e l) <= k
  ∧ snd (shr_fexp prec emax m e l) <= k.
Proof.
  intros Hm Hd He Hk. unfold shr_fexp, shr. rewrite fexp_eq.
  destruct (Z.max (Zdigits2 m + e - 53) (-1074) - e) as [|p|p] eqn:Hn;
    simpl; rewrite ?shr_record_of_loc_m; try lia.
  rewrite iter_shr_1_m by (rewrite shr_record_of_loc_m; lia).
  rewrite shr_record_of_loc_m.
  pose proof (Zdigits2_div m (Z.pos p) Hm ltac:(lia)).
  split; [apply Z.div_pos; [lia|apply Z.pow_pos_nonneg; lia]|]. lia.
Qed.

Lemma round_nearest_even_bounds m l :
  m <= round_nearest_even m l <= m + 1.
Proof.
  unfold round_nearest_even. destruct l as [|[]]; try lia.
  destruct (Z.even m); lia.
Qed.

Lemma binary_round_aux_below s m e l k :
  0 <= m → Zdigits2 m + e <= k → e <= k → -1074 <= k → k <= 971 →
  below (k + 1) (binary_round_aux prec emax s m e l).
Proof.
  intros Hm Hd He Hk Hk'. unfold binary_round_aux.
  pose proof (shr_fexp_below m e l k Hm Hd He Hk) as (H1 & H2 & H3).
  destruct (shr_fexp prec emax m e l) as [mrs' e']. simpl in H1, H2, H3.
  pose proof (round_nearest_even_bounds (shr_m mrs')
                (loc_of_shr_record mrs')) as Hr.
  set (r := round_nearest_even _ _) in *.
  assert (Zdigits2 r <= Zdigits2 (shr_m mrs') + 1) as Hdr.
  { etransitivity; [apply (Zdigits2_mono r (shr_m mrs' + 1)); lia|].
    apply Zdigits2_succ. lia. }
  pose proof (shr_fexp_below r e' loc_Exact (k + 1)
                ltac:(lia) ltac:(lia) ltac:(lia) ltac:(lia))
    as (H4 & H5 & H6).
  assert (snd (shr_fexp prec emax r e' loc_Exact) <= k) as H7.
  { unfold shr_fexp, shr. rewrite fexp_eq.
    destruct (Z.max (Zdigits2 r + e' - 53) (-1074) - e') eqn:Hn; simpl;
      lia. }
  destruct (shr_fexp prec emax r e' loc_Exact) as [mrs'' e''].
  simpl in H4, H5, H6, H7.
  destruct (shr_m mrs'') as [|q|q] eqn:Hq; simpl; [exact I| |lia].
  rewrite (proj2 (Z.leb_le e'' (emax - prec))) by (unfold emax, prec; lia).
  simpl. simpl in H5. lia.
Qed.
Lemma below_mono k k' x : k <= k' → below k x → below k' x.
Proof. destruct x; simpl; try done. lia. Qed.

Lemma digits2_pos_iter p d :
  Z.pos (digits2_pos (Pos.iter xO p d)) = Z.pos (digits2_pos p) + Z.pos d.
Proof.
  induction d as [|d IH] using Pos.peano_ind.
  - simpl. lia.
  - rewrite Pos.iter_succ. simpl. lia.
Qed.

(** A mantissa of 53 bits with an exponent in range needs no rounding. *)
Lemma binary_round_aux_exact s m e :
  Z.pos (digits2_pos m) = 53 → -1074 <= e <= 971 →
  binary_round_aux prec emax s (Z.pos m) e loc_Exact = S754_finite s m e.
Proof.
  intros Hd He. unfold binary_round_aux, shr_fexp. simpl Zdigits2.
  rewrite fexp_eq, Hd.
  replace (Z.max (53 + e - 53) (-1074) - e) with 0 by lia. simpl.
  rewrite fexp_eq, Hd.
  replace (Z.max (53 + e - 53) (-1074) - e) with 0 by lia. simpl.
  rewrite (proj2 (Z.leb_le e (emax - prec))) by (unfold emax, prec; lia).
  reflexivity.
Qed.

(** An int below [2 ^ 53] converts exactly, to a float with a 53 bit
    mantissa. *)
Lemma of_int_small n :
  0 < n < 2 ^ 53 →
  ∃ m e, of_int n = Ok (S754_finite false m e)
         ∧ Z.pos (digits2_pos m) = 53 ∧ -52 <= e <= 0
         ∧ Zdigits2 n = 53 + e.
Proof.
  intros [Hpos Hlt]. destruct n as [|p|p]; try lia.
  pose proof (Zdigits2_le (Z.pos p) 53 ltac:(lia) ltac:(lia) Hlt) as Hd.
  simpl in Hd. unfold of_int, binary_normalize, binary_round.
  rewrite fexp_eq. unfold shl_align.
  destruct (Z.max (Z.pos (digits2_pos p) + 0 - 53) (-1074) - 0)
    as [|d|d] eqn:Hs; try lia.
  - rewrite binary_round_aux_exact by lia.
    exists p, 0. simpl. repeat split; lia.
  - pose proof (digits2_pos_iter p d) as Hi.
    rewrite binary_round_aux_exact by lia.
    eexists _, _. split; [reflexivity|]. simpl. lia.
Qed.

Lemma of_int_below n k :
  0 <= n < 2 ^ k → 0 <= k <= 971 →
  ∃ f, of_int n = Ok f ∧ below (k + 1) f.
Proof.
  intros [Hpos Hlt] Hk. unfold of_int, binary_normalize.
  destruct n as [|p|p]; [| |lia].
  - eexists. split; [reflexivity|exact I].
  - pose proof (Zdigits2_le (Z.pos p) k ltac:(lia) ltac:(lia) Hlt) as Hd.
    simpl in Hd. unfold binary_round. rewrite fexp_eq. unfold shl_align.
    assert (∀ mz ez, Zdigits2 (Z.pos mz) + ez <= k → ez <= k →
              ∃ f, match binary_round_aux prec emax false (Z.pos mz) ez
                           loc_Exact with
                   | S754_infinity _ => Raise OverflowError
                   | f => Ok f
                   end = Ok f ∧ below (k + 1) f) as Haux.
    { intros mz ez H1 H2.
      pose proof (binary_round_aux_below false (Z.pos mz) ez loc_Exact k
                    ltac:(lia) H1 H2 ltac:(lia) ltac:(lia)) as Hb.
      destruct (binary_round_aux _ _ _ _ _ _); try done; eauto. }
    destruct (Z.max (Z.pos (digits2_pos p) + 0 - 53) (-1074) - 0)
      as [|d|d] eqn:Hs; apply Haux; simpl; try lia.
    pose proof (digits2_pos_iter p d). lia.
Qed.

Lemma mul_below a b x y :
  below a x → below b y → -1074 <= a + b <= 971 →
  below (a + b + 1) (mul x y).
Proof.
  destruct x as [sx|sx| |sx mx ex], y as [sy|sy| |sy my ey]; simpl;
    try done.
  intros [H1 H2] [H3 H4] Hab.
  apply binary_round_aux_below; try lia.
  pose proof (Zdigits2_mul (Z.pos mx) (Z.pos my) ltac:(lia) ltac:(lia)).
  simpl in *. lia.
Qed.

Lemma div_below a x my ey :
  below a x → -52 <= ey → -1074 <= a + 53 <= 971 →
  ∃ r, div x (S754_finite false my ey) = Ok r ∧ below (a + 54) r.
Proof.
  intros Hx Hey Ha. unfold div. eexists. split; [reflexivity|].
  destruct x as [sx|sx| |sx mx ex]; simpl in *; try done.
  destruct Hx as [H1 H2]. unfold SFdiv_core_binary.
  set (e' := Z.min _ _).
  assert (e' <= ex - ey) as He' by (subst e'; lia).
  set (m' := match ex - ey - e' with
             | 0 => Z.pos mx
             | Z.pos _ => Z.shiftl (Z.pos mx) (ex - ey - e')
             | Z.neg _ => 0
             end).
  assert (0 <= m' ∧ Zdigits2 m' <= Zdigits2 (Z.pos mx) + (ex - ey - e'))
    as [Hm0 Hmd].
  { subst m'. destruct (ex - ey - e') as [|s|s] eqn:Hs; try lia.
    rewrite Z.shiftl_mul_pow2 by lia.
    assert (0 < 2 ^ Z.pos s) by (apply Z.pow_pos_nonneg; lia).
    split; [lia|].
    pose proof (Zdigits2_gt (Z.pos mx) ltac:(lia)).
    apply Zdigits2_le; [lia|simpl; lia|].
    rewrite Z.pow_add_r by (simpl; lia). nia. }
  pose proof (Z.div_eucl_eq m' (Z.pos my) ltac:(lia)) as Heq.
  pose proof (Z.mod_pos_bound m' (Z.pos my) ltac:(lia)) as Hmod.
  unfold Z.modulo in Hmod.
  destruct (Z.div_eucl m' (Z.pos my)) as [q r].
  assert (0 <= q <= m') as Hq by nia.
  replace (a + 54) with (a + 53 + 1) by lia.
  apply binary_round_aux_below; try lia.
  pose proof (Zdigits2_mono q m' Hq). simpl in *. lia.
Qed.

Lemma to_int_below k x :
  below k x → 0 <= k → negative x = false →
  ∃ t, to_int x = Ok t ∧ 0 <= t < 2 ^ k.
Proof.
  intros Hb Hk Hn.
  assert (0 < 2 ^ k) by (apply Z.pow_pos_nonneg; lia).
  destruct x as [s|s| |s m e]; simpl in *; try done.
  - exists 0. split; [reflexivity|lia].
  - destruct s; [discriminate|]. eexists. split; [reflexivity|].
    destruct Hb as [H1 H2].
    pose proof (Zdigits2_gt (Z.pos m) ltac:(lia)) as Hm. simpl in Hm.
    destruct (Z.leb_spec 0 e).
    + assert (0 < 2 ^ e) by (apply Z.pow_pos_nonneg; lia).
      split; [lia|].
      apply Z.lt_le_trans with (2 ^ (Z.pos (digits2_pos m) + e)).
      * rewrite Z.pow_add_r by lia. nia.
      * apply Z.pow_le_mono_r; lia.
    + assert (0 < 2 ^ (- e)) by (apply Z.pow_pos_nonneg; lia).
      split; [apply Z.div_pos; lia|].
      pose proof (Zdigits2_div (Z.pos m) (- e) ltac:(lia) ltac:(lia)) as Hd.
      pose proof (Zdigits2_gt (Z.pos m / 2 ^ (- e))
                    ltac:(apply Z.div_pos; lia)) as Hg.
      eapply Z.lt_le_trans; [exact Hg|].
      apply Z.pow_le_mono_r; [lia|]. simpl in Hd. lia.
Qed.

(** A valid float between 0.03 and 0.80 is positive and below 1. *)
Lemma scale_below (x : float) :
  valid x → leb f_0_03 x = true → leb x f_0_80 = true →
  below 0 x ∧ negative x = false.
Proof.
  unfold valid, leb, f_0_03, f_0_80.
  destruct x as [s|s| |s m e];
    cbv beta iota delta [SFcompare valid_binary below negative];
    try discriminate; try (destruct s; discriminate).
  destruct s; [discriminate|].
  unfold bounded, canonical_mantissa. rewrite fexp_eq.
  intros Hv _ Hle.
  apply andb_prop in Hv as [Hc _]. apply Z.eqb_eq in Hc.
  assert (e <= -53) as He.
  { destruct (Z.compare_spec e (-53)); first [lia | discriminate]. }
  split; [|reflexivity]. simpl Zdigits2. lia.
Qed.
End FloatRange.

(** ** The geometry calculator *)

(** C1: [compute_position] returns (m, m) for top_left, (base_w - logo_w - m,
    m) for top_right, (m, base_h - logo_h - m) for bottom_left, the floor
    halves of the free space for center, and (base_w - logo_w - m,
    base_h - logo_h - m) for bottom_right and for every string that is none of
    the other four; a 180 x 90 overlay on a 1000 x 800 base with margin 24 is
    placed at (796, 686). *)
Theorem compute_position_anchors :
  (∀ base_w base_h logo_w logo_h m,
     compute_position base_w base_h logo_w logo_h "top_left" m = (m, m)
     ∧ compute_position base_w base_h logo_w logo_h "top_right" m
       = (base_w - logo_w - m, m)
     ∧ compute_position base_w base_h logo_w logo_h "bottom_left" m
       = (m, base_h - logo_h - m)
     ∧ compute_position base_w base_h logo_w logo_h "bottom_right" m
       = (base_w - logo_w - m, base_h - logo_h - m)
     ∧ (∃ x y,
          compute_position base_w base_h logo_w logo_h "center" m = (x, y)
          ∧ x = (base_w - logo_w) / 2 ∧ y = (base_h - logo_h) / 2
          ∧ 2 * x <= base_w - logo_w < 2 * x + 2
          ∧ 2 * y <= base_h - logo_h < 2 * y + 2))
  ∧ (∀ base_w base_h logo_w logo_h m (position : string),
       position ∉ ["top_left"; "top_right"; "bottom_left"; "center"]%string →
       compute_position base_w base_h logo_w logo_h position m
       = (base_w - logo_w - m, base_h - logo_h - m))
  ∧ compute_position 1000 800 180 90 "bottom_right" 24 = (796, 686).
Proof.
  split; [|split].
  - intros. repeat split; try reflexivity.
    exists ((base_w - logo_w) / 2), ((base_h - logo_h) / 2).
    repeat split; try reflexivity;
      first [ apply Z.mul_div_le; lia
            | pose proof (Z.mod_pos_bound (base_w - logo_w) 2 ltac:(lia));
              pose proof (Z.div_mod (base_w - logo_w) 2 ltac:(lia)); lia
            | pose proof (Z.mod_pos_bound (base_h - logo_h) 2 ltac:(lia));
              pose proof (Z.div_mod (base_h - logo_h) 2 ltac:(lia)); lia ].
  - intros base_w base_h logo_w logo_h m position Hpos.
    unfold compute_position.
    repeat match goal with
      | |- context [String.eqb position ?k] =>
          destruct (String.eqb_spec position k) as [->|_];
          [exfalso; apply Hpos; set_solver|]
      end.
    reflexivity.
  - reflexivity.
Qed.

Lemma compute_position_anchors_witness :
  compute_position 640 480 64 32 "middle" 8 = (568, 440).
Proof.
  apply (proj1 (proj2 compute_position_anchors)).
  apply (bool_decide_unpack _). vm_compute. exact I.
Defined.


(** ** The size of the resized logo *)

(** C2, as the specification words it, fails: the target height is not the
    nearest integer to Ho * Wt / Wo.  A 4 x 7 logo on a base of width 10 at
    scale 0.1 gets the size 1 x 1, and 7 * 1 / 4 = 1.75 rounds to 2. *)
Lemma target_height_not_rounded :
  ¬ (∀ base_w (sc : float) wo ho tw th,
       0 < base_w < 2 ^ 31 → 0 < wo < 2 ^ 31 → 0 < ho < 2 ^ 31 →
       Float.valid sc →
       Float.leb Float.f_0_03 sc = true → Float.leb sc Float.f_0_80 = true →
       target_logo_size base_w sc (wo, ho) = Ok (tw, th) →
       nearest_integer th (ho * tw) wo).
Proof.
  intros Hround.
  assert (nearest_integer 1 (7 * 1) 4) as Hn.
  { apply (Hround 10 (Float.of_ratio 1 10) 4 7 1 1);
      first [lia | reflexivity]. }
  unfold nearest_integer in Hn. lia.
Qed.

(** What a successful run of lines 123-126 has computed. *)
Lemma target_logo_size_inv base_w (sc : float) wo ho tw th :
  0 <= base_w → 0 <= wo → 0 <= ho →
  Float.negative sc = false →
  target_logo_size base_w sc (wo, ho) = Ok (tw, th) →
  ∃ b n d ratio l,
    Float.of_int base_w = Ok b
    ∧ Float.floor (Float.mul b sc) ≫= (λ t, Some (Z.max 1 t)) = Some tw
    ∧ Float.of_int tw = Ok n ∧ Float.of_int wo = Ok d
    ∧ Float.div n d = Ok ratio
    ∧ Float.of_int ho = Ok l
    ∧ Float.floor (Float.mul l ratio) ≫= (λ h, Some (Z.max 1 h)) = Some th
    ∧ 1 <= tw ∧ 1 <= th.
Proof.
  intros Hbw Hwo Hho Hsc'. unfold target_logo_size. simpl.
  destruct (Float.of_int base_w) as [b|] eqn:Hb; [|discriminate]. simpl.
  destruct (Float.to_int (Float.mul b sc)) as [t|] eqn:Ht; [|discriminate].
  simpl.
  destruct (Float.of_int (Z.max 1 t)) as [n|] eqn:Hn; [|discriminate]. simpl.
  destruct (Float.of_int wo) as [d|] eqn:Hd; [|discriminate]. simpl.
  destruct (Float.div n d) as [ratio|] eqn:Hr; [|discriminate]. simpl.
  destruct (Float.of_int ho) as [l|] eqn:Hl; [|discriminate]. simpl.
  destruct (Float.to_int (Float.mul l ratio)) as [h|] eqn:Hh; [|discriminate].
  simpl. intros [= <- <-].
  pose proof (of_int_nonneg _ _ Hbw Hb) as Hb'.
  pose proof (of_int_nonneg (Z.max 1 t) _ ltac:(lia) Hn) as Hn'.
  pose proof (of_int_nonneg _ _ Hwo Hd) as Hd'.
  pose proof (of_int_nonneg _ _ Hho Hl) as Hl'.
  pose proof (div_nonneg _ _ _ Hn' Hd' Hr) as Hr'.
  exists b, n, d, ratio, l.
  rewrite (to_int_floor _ _ (mul_nonneg _ _ Hb' Hsc') Ht).
  rewrite (to_int_floor _ _ (mul_nonneg _ _ Hl' Hr') Hh).
  simpl. repeat split; try reflexivity; try assumption; lia.
Qed.

(** Lines 123-126 raise nothing on the sizes Pillow can hold (sides below
    2 ^ 31, a logo of positive width) and a scale between 0.03 and 0.80. *)
Lemma target_logo_size_returns base_w (sc : float) wo ho :
  0 <= base_w < 2 ^ 31 → 0 < wo < 2 ^ 31 → 0 <= ho < 2 ^ 31 →
  Float.valid sc →
  Float.leb Float.f_0_03 sc = true → Float.leb sc Float.f_0_80 = true →
  ∃ tw th, target_logo_size base_w sc (wo, ho) = Ok (tw, th).
Proof.
  intros Hbw Hwo Hho Hv Hlo Hhi.
  destruct (scale_below sc Hv Hlo Hhi) as [Hsc Hsc'].
  destruct (of_int_below base_w 31 Hbw ltac:(lia)) as (b & Hb & Hbb).
  pose proof (of_int_nonneg _ _ (proj1 Hbw) Hb) as Hb'.
  pose proof (mul_below 32 0 b sc Hbb Hsc ltac:(lia)) as Hp.
  destruct (to_int_below 33 _ Hp ltac:(lia) (mul_nonneg _ _ Hb' Hsc'))
    as (t & Ht & Htb).
  assert (0 <= Z.max 1 t < 2 ^ 33) as Htw by lia.
  destruct (of_int_below (Z.max 1 t) 33 Htw ltac:(lia)) as (n & Hn & Hnb).
  pose proof (of_int_nonneg _ _ (proj1 Htw) Hn) as Hn'.
  destruct (of_int_small wo ltac:(lia)) as (md & ed & Hd & _ & Hed & _).
  destruct (div_below 34 n md ed Hnb ltac:(lia) ltac:(lia))
    as (ratio & Hr & Hrb).
  pose proof (div_nonneg n (S754_finite false md ed) ratio Hn' eq_refl Hr)
    as Hr'.
  destruct (of_int_below ho 31 Hho ltac:(lia)) as (l & Hl & Hlb).
  pose proof (of_int_nonneg _ _ (proj1 Hho) Hl) as Hl'.
  pose proof (mul_below 32 88 l ratio Hlb Hrb ltac:(lia)) as Hq.
  destruct (to_int_below 121 _ Hq ltac:(lia) (mul_nonneg _ _ Hl' Hr'))
    as (h & Hh & _).
  exists (Z.max 1 t), (Z.max 1 h).
  unfold target_logo_size. cbn [mbind result_bind fst snd].
  rewrite Hb. cbn [mbind result_bind]. rewrite Ht. cbn [mbind result_bind].
  rewrite Hn. cbn [mbind result_bind]. rewrite Hd. cbn [mbind result_bind].
  rewrite Hr. cbn [mbind result_bind]. rewrite Hl. cbn [mbind result_bind].
  rewrite Hh. reflexivity.
Qed.

(** C2, amended: on the sizes Pillow can hold and a clamped scale, the
    compositor returns the target width max(1, floor(base_w * scale)) and the
    target height max(1, floor(Ho * (Wt / Wo))), the products and the quotient
    being those of binary64; neither is below 1. *)
Theorem target_logo_size_floor base_w (sc : float) wo ho :
  0 <= base_w < 2 ^ 31 → 0 < wo < 2 ^ 31 → 0 <= ho < 2 ^ 31 →
  Float.valid sc →
  Float.leb Float.f_0_03 sc = true → Float.leb sc Float.f_0_80 = true →
  ∃ tw th b n d ratio l,
    target_logo_size base_w sc (wo, ho) = Ok (tw, th)
    ∧ Float.of_int base_w = Ok b
    ∧ Float.floor (Float.mul b sc) ≫= (λ t, Some (Z.max 1 t)) = Some tw
    ∧ Float.of_int tw = Ok n ∧ Float.of_int wo = Ok d
    ∧ Float.div n d = Ok ratio
    ∧ Float.of_int ho = Ok l
    ∧ Float.floor (Float.mul l ratio) ≫= (λ h, Some (Z.max 1 h)) = Some th
    ∧ 1 <= tw ∧ 1 <= th.
Proof.
  intros Hbw Hwo Hho Hv Hlo Hhi.
  destruct (target_logo_size_returns _ _ _ _ Hbw Hwo Hho Hv Hlo Hhi)
    as (tw & th & Hrun).
  destruct (target_logo_size_inv base_w sc wo ho tw th (proj1 Hbw)
              ltac:(lia) (proj1 Hho) (proj2 (scale_below sc Hv Hlo Hhi)) Hrun)
    as (b & n & d & ratio & l & Hinv).
  exists tw, th, b, n, d, ratio, l. split; [exact Hrun|exact Hinv].
Qed.

Lemma target_logo_size_floor_witness :
  ∃ tw th b n d ratio l,
    target_logo_size 1000 Float.f_0_18 (200, 100) = Ok (tw, th)
    ∧ Float.of_int 1000 = Ok b
    ∧ Float.floor (Float.mul b Float.f_0_18) ≫= (λ t, Some (Z.max 1 t))
      = Some tw
    ∧ Float.of_int tw = Ok n ∧ Float.of_int 200 = Ok d
    ∧ Float.div n d = Ok ratio
    ∧ Float.of_int 100 = Ok l
    ∧ Float.floor (Float.mul l ratio) ≫= (λ h, Some (Z.max 1 h)) = Some th
    ∧ 1 <= tw ∧ 1 <= th.
Proof.
  apply (target_logo_size_floor 1000 Float.f_0_18 200 100);
    first [lia | reflexivity].
Defined.

(** The example of the specification: a 200 x 100 logo on a base of width
    1000 at the default scale is resized to 180 x 90. *)
Example target_logo_size_default :
  target_logo_size 1000 Float.f_0_18 (200, 100) = Ok (180, 90).
Proof. reflexivity. Qed.

(** ** The clamps *)

(** C3 at the input the clamp misses: a NaN is neither below the lower bound
    nor above the upper one, so [clamp_float] returns it; it is not in the
    interval, and the handler then fails in [int()] whatever the images. *)
Theorem clamp_float_nan :
  clamp_float S754_nan Float.f_0_03 Float.f_0_80 = S754_nan
  ∧ Float.leb Float.f_0_03 S754_nan = false
  ∧ Float.leb S754_nan Float.f_0_80 = false
  ∧ (∀ cfg rq, scale rq = Some S754_nan →
       ∀ p, overlay_params cfg rq = Ok p → sc p = S754_nan)
  ∧ (∀ base_w logo_size,
       target_logo_size base_w S754_nan logo_size = Raise ValueError
       ∨ target_logo_size base_w S754_nan logo_size = Raise OverflowError)
  ∧ fst (overlay_logo TestLib.world_with_logo
           {| image := Some TestLib.base_png; image_url := None;
              logo_url := None; position := None; margin_px := None;
              scale := Some S754_nan; opacity := None;
              authorization := None |} TestLib.empty_state)
    = Raise ValueError.
Proof.
  repeat split; try reflexivity.
  - intros cfg rq Hs p. unfold overlay_params. rewrite Hs.
    case_bool_decide; [discriminate|]. simpl.
    destruct (match margin_px rq with Some _ => _ | None => _ end);
      [|discriminate]. simpl.
    destruct (match opacity rq with Some _ => _ | None => _ end);
      [|discriminate]. simpl.
    intros [= <-]. reflexivity.
  - intros base_w logo_size. unfold target_logo_size. simpl.
    destruct (Float.of_int base_w) as [b|e] eqn:Hb.
    + left. simpl. destruct b; reflexivity.
    + right. simpl. unfold Float.of_int in Hb.
      destruct (binary_normalize _ _ _ _ _); congruence.
Qed.

(** What the clamps do on every other value: a scale below 0.03 becomes
    0.03, one above 0.80 becomes 0.80, one in between is kept, and likewise
    for the opacity in [0.05, 1.0]; a negative margin becomes 0; none of this
    raises. *)
Lemma overlay_params_clamped cfg rq x o m p :
  scale rq = Some x → opacity rq = Some o → margin_px rq = Some m →
  overlay_params cfg rq = Ok p →
  (Float.ltb x Float.f_0_03 = true → sc p = Float.f_0_03)
  ∧ (Float.gtb x Float.f_0_80 = true → sc p = Float.f_0_80)
  ∧ (Float.leb Float.f_0_03 x = true → Float.leb x Float.f_0_80 = true →
     sc p = x)
  ∧ (Float.is_nan x = false →
     Float.leb Float.f_0_03 (sc p) = true
     ∧ Float.leb (sc p) Float.f_0_80 = true)
  ∧ (Float.ltb o Float.f_0_05 = true → op p = Float.f_0_05)
  ∧ (Float.gtb o Float.f_1_0 = true → op p = Float.f_1_0)
  ∧ (Float.leb Float.f_0_05 o = true → Float.leb o Float.f_1_0 = true →
     op p = o)
  ∧ (Float.is_nan o = false →
     Float.leb Float.f_0_05 (op p) = true
     ∧ Float.leb (op p) Float.f_1_0 = true)
  ∧ margin p = Z.max 0 m.
Proof.
  intros Hx Ho Hm. unfold overlay_params. rewrite Hx, Ho, Hm.
  case_bool_decide; [discriminate|]. simpl. intros [= <-]. simpl.
  repeat split.
  - apply clamp_float_below.
  - apply clamp_float_above. reflexivity.
  - apply clamp_float_id.
  - apply clamp_float_in_range; [assumption|reflexivity].
  - apply clamp_float_in_range; [assumption|reflexivity].
  - apply clamp_float_below.
  - apply clamp_float_above. reflexivity.
  - apply clamp_float_id.
  - apply clamp_float_in_range; [assumption|reflexivity].
  - apply clamp_float_in_range; [assumption|reflexivity].
  - destruct (Z.ltb_spec m 0); lia.
Qed.

(** The clamps never raise: with a valid position, [overlay_params] returns
    for every supplied scale, opacity and margin. *)
Lemma overlay_params_total cfg rq x o m :
  scale rq = Some x → opacity rq = Some o → margin_px rq = Some m →
  Str.lower (Str.strip (Str.or_else (position rq) (DEFAULT_POSITION cfg)))
    ∈ POSITIONS →
  ∃ p, overlay_params cfg rq = Ok p.
Proof.
  intros Hx Ho Hm Hpos. unfold overlay_params. rewrite Hx, Ho, Hm.
  case_bool_decide; [contradiction|]. simpl. eauto.
Qed.

(** ** Runs of the handler *)

Section Runs.
Context `{ImageLib}.
Implicit Types (s : state) (w : world) (rq : request) (l : loc).

Lemma fresh_lookup (h : gmap loc Image) : h !! fresh (dom h) = None.
Proof. apply not_elem_of_dom, is_fresh. Qed.

Lemma lookup_insert_fresh (h : gmap loc Image) l im im' :
  h !! l = Some im → <[fresh (dom h) := im']> h !! l = Some im.
Proof.
  intros Hl. rewrite lookup_insert_ne; [done|].
  intros <-. rewrite fresh_lookup in Hl. discriminate.
Qed.

Lemma bind_run {A B} (m : M A) (f : A → M B) s :
  (m ≫= f) s
  = match m s with
    | (Ok a, s') => f a s'
    | (Raise e, s') => (Raise e, s')
    end.
Proof. reflexivity. Qed.

Lemma get_run l im s : heap s !! l = Some im → get l s = (Ok im, s).
Proof. unfold get. intros ->. reflexivity. Qed.

Lemma open_bytes_run b : open_bytes b = returning (decode b).
Proof. unfold open_bytes, decode. destruct (Image_open b); reflexivity. Qed.

(** The remote fetch of an image, with either timeout. *)
Lemma remote_run w url timeout s :
  (resp ← requests_get w url timeout;
   raise_for_status resp;;
   open_bytes (content resp)) s
  = returning (fetched w url) (logged url s).
Proof.
  rewrite bind_run. unfold requests_get, fetched.
  destruct (net w !! url) as [resp|]; [|reflexivity].
  rewrite bind_run. unfold raise_for_status.
  destruct ((400 <=? status resp) && (status resp <? 600)); [reflexivity|].
  simpl. rewrite open_bytes_run. reflexivity.
Qed.

Lemma load_logo_local_run w : load_logo_local w = returning (local_logo w).
Proof.
  unfold load_logo_local, local_logo, path_exists, open_path.
  destruct (fs w !! LOGO_PATH (env w)) as [[b|]|].
  - rewrite bool_decide_eq_true_2 by eauto. apply open_bytes_run.
  - rewrite bool_decide_eq_true_2 by eauto. reflexivity.
  - rewrite bool_decide_eq_false_2 by (intros [? ?]; discriminate).
    reflexivity.
Qed.

Lemma load_logo_run w logo_url s :
  load_logo w logo_url s
  = returning (resolved_logo w logo_url)
      (match logo_url with
       | Some (String c u) => logged (String c u) s
       | _ => s
       end).
Proof.
  unfold load_logo, resolved_logo.
  destruct logo_url as [[|c u]|]; simpl;
    try (rewrite load_logo_local_run; reflexivity).
  unfold try_except, load_logo_remote. rewrite remote_run.
  destruct (fetched w (String c u)); simpl; [reflexivity|].
  rewrite load_logo_local_run. reflexivity.
Qed.

Lemma overlay_base_run w rq s :
  overlay_base w rq s
  = returning (resolved_base w rq)
      (match image rq, image_url rq with
       | None, Some (String c u) => logged (String c u) s
       | _, _ => s
       end).
Proof.
  unfold overlay_base, resolved_base.
  destruct (image rq) as [[|b raw]|].
  - reflexivity.
  - unfold try_except. rewrite open_bytes_run.
    destruct (decode (b :: raw)); reflexivity.
  - destruct (image_url rq) as [[|c u]|]; simpl; try reflexivity.
    unfold try_except. rewrite remote_run.
    destruct (fetched w (String c u)); reflexivity.
Qed.

(** The composite of lines 143-144 leaves every image alive before it as it
    was, and on success returns a new image: the base with the logo
    composited. *)
Lemma overlay_composite_run base logo xy B L s :
  heap s !! base = Some B → heap s !! logo = Some L →
  overlay_composite base logo xy s
  = match Image_alpha_composite B L xy with
    | Some C =>
        (Ok (fresh (dom (heap s))),
         {| heap := <[fresh (dom (heap s)) := C]> (heap s);
            calls := calls s |})
    | None =>
        (Raise ImagingError,
         {| heap := <[fresh (dom (heap s)) := B]> (heap s);
            calls := calls s |})
    end.
Proof.
  intros Hb Hl. unfold overlay_composite, copy, alpha_composite.
  rewrite !bind_run, (get_run _ _ _ Hb). unfold alloc at 1.
  rewrite !bind_run. unfold get at 1. simpl.
  rewrite lookup_insert_eq. rewrite bind_run. unfold get at 1. simpl.
  rewrite (lookup_insert_fresh _ _ _ _ Hl).
  destruct (Image_alpha_composite B L xy); [|reflexivity].
  simpl. unfold set. rewrite insert_insert_eq. reflexivity.
Qed.

Lemma overlay_compose_run p base logo B L s :
  heap s !! base = Some B → heap s !! logo = Some L →
  ∃ s', overlay_compose p base logo s = (composed_png p B L, s')
        ∧ ∀ l im, heap s !! l = Some im → heap s' !! l = Some im.
Proof.
  intros Hb Hl. unfold overlay_compose, composed_png, size.
  rewrite !bind_run, (get_run _ _ _ Hb). simpl.
  destruct (Image_size B) as [base_w base_h] eqn:HB. simpl.
  rewrite !bind_run, (get_run _ _ _ Hl). simpl.
  rewrite bind_run. unfold lift at 1.
  destruct (target_logo_size base_w (sc p) (Image_size L))
    as [[tw th]|e]; simpl; [|eauto].
  rewrite bind_run. unfold resize at 1. rewrite bind_run, (get_run _ _ _ Hl).
  destruct (Image_resize L (tw, th)) as [L1|]; simpl; [|eauto].
  set (l1 := fresh (dom (heap s))).
  set (s1 := {| heap := <[l1 := L1]> (heap s); calls := calls s |}).
  assert (∃ s2 L2,
    (if Float.ltb (op p) Float.f_1_0 then putalpha_enhanced l1 (op p)
     else mret tt) s1 = (Ok tt, s2)
    ∧ L2 = (if Float.ltb (op p) Float.f_1_0 then Image_fade L1 (op p)
            else L1)
    ∧ heap s2 = <[l1 := L2]> (heap s))
    as (s2 & L2 & Hrun & HL2 & Hh2).
  { destruct (Float.ltb (op p) Float.f_1_0).
    - eexists _, _. split; [|split; [reflexivity|]].
      + unfold putalpha_enhanced. rewrite bind_run. unfold get. simpl.
        rewrite lookup_insert_eq. reflexivity.
      + simpl. rewrite insert_insert_eq. done.
    - exists s1, L1. done. }
  rewrite bind_run, Hrun. rewrite <- HL2. clear Hrun.
  assert (heap s2 !! l1 = Some L2) as Hl1
    by (rewrite Hh2; apply lookup_insert_eq).
  assert (∀ l im, heap s !! l = Some im → heap s2 !! l = Some im) as Hext.
  { intros l im Hlk. rewrite Hh2. apply lookup_insert_fresh, Hlk. }
  rewrite !bind_run, (get_run _ _ _ Hl1). simpl.
  destruct (Image_size L2) as [logo_w logo_h]. simpl.
  rewrite bind_run.
  rewrite (overlay_composite_run base l1 _ B L2 s2 (Hext _ _ Hb) Hl1).
  destruct (Image_alpha_composite B L2 _) as [C|]; simpl.
  - unfold save_png. rewrite bind_run. unfold get. simpl.
    rewrite lookup_insert_eq. simpl. eexists. split; [reflexivity|].
    intros l im Hlk. apply lookup_insert_fresh, Hext, Hlk.
  - eexists. split; [reflexivity|]. intros l im Hlk.
    apply lookup_insert_fresh, Hext, Hlk.
Qed.

(** The handler returns [overlay_result], from every store. *)
Lemma overlay_logo_run w rq s :
  fst (overlay_logo w rq s) = overlay_result w rq.
Proof.
  unfold overlay_logo, overlay_result.
  rewrite bind_run. unfold lift at 1.
  destruct (require_token (env w) (authorization rq)) as [[]|e];
    [|reflexivity]. simpl.
  rewrite bind_run. unfold lift at 1.
  destruct (overlay_params (env w) rq) as [p|e]; [|reflexivity]. simpl.
  rewrite bind_run, overlay_base_run.
  match goal with
  | |- context [returning _ ?x] => generalize x; intros s0
  end.
  destruct (resolved_base w rq) as [B|e]; [|reflexivity].
  unfold returning at 1, alloc at 1. set (base := fresh (dom (heap s0))).
  rewrite bind_run, load_logo_run.
  match goal with
  | |- context [returning _ ?x] => set (s1 := x)
  end.
  assert (heap s1 = <[base := B]> (heap s0)) as Hh
    by (subst s1; destruct (logo_url rq) as [[|]|]; reflexivity).
  clearbody s1.
  destruct (resolved_logo w (logo_url rq)) as [L|e]; [|reflexivity].
  unfold returning, alloc. set (logo := fresh (dom (heap s1))).
  cbv beta iota. rewrite bind_run.
  match goal with
  | |- context [overlay_compose p base logo ?s2] =>
      destruct (overlay_compose_run p base logo B L s2) as (s' & Hrun & _)
  end.
  - simpl. rewrite lookup_insert_ne, Hh; [apply lookup_insert_eq|].
    intros Heq. pose proof (fresh_lookup (heap s1)) as Hf.
    fold logo in Hf. rewrite Heq, Hh, lookup_insert_eq in Hf. discriminate.
  - simpl. apply lookup_insert_eq.
  - rewrite Hrun. cbn [mbind result_bind].
    destruct (composed_png p B L); reflexivity.
Qed.

End Runs.

(** ** The check of the position *)

Section Handler.
Context `{ImageLib}.
Implicit Types (s : state) (w : world) (rq : request) (l : loc).

Lemma target_logo_size_raises base_w x sz e :
  target_logo_size base_w x sz = Raise e →
  e = ValueError ∨ e = OverflowError ∨ e = ZeroDivisionError.
Proof.
  unfold target_logo_size, Float.of_int, Float.to_int, Float.div.
  cbn [mbind result_bind].
  repeat (case_match; cbn [mbind result_bind]); intros; simplify_eq; auto.
Qed.

Lemma overlay_params_raises cfg rq e :
  overlay_params cfg rq = Raise e →
  e = ValueError
  ∨ e = HTTPException 400 InvalidParameter
    ∧ Str.lower (Str.strip (Str.or_else (position rq) (DEFAULT_POSITION cfg)))
      ∉ POSITIONS.
Proof.
  unfold overlay_params, parsed. case_bool_decide as Hpos.
  - intros [= <-]. auto.
  - cbn [mbind result_bind].
    repeat (case_match; cbn [mbind result_bind]); intros; simplify_eq; auto.
Qed.

Lemma resolved_base_raises w rq e :
  resolved_base w rq = Raise e →
  ∃ d, e = HTTPException 400 d ∧ d ≠ InvalidParameter ∧ d ≠ LogoNotFound.
Proof.
  unfold resolved_base. intros Hr.
  repeat case_match; simplify_eq; eexists; split; try reflexivity; done.
Qed.

Lemma resolved_logo_raises w logo_url e :
  resolved_logo w logo_url = Raise e →
  e = UnidentifiedImageError ∨ e = OSError ∨ e = IsADirectoryError
  ∨ e = HTTPException 400 LogoNotFound.
Proof.
  unfold resolved_logo, local_logo, decode, open_exn. intros Hr.
  repeat case_match; simplify_eq; auto.
Qed.

Lemma composed_png_raises p B L e :
  composed_png p B L = Raise e →
  e = ValueError ∨ e = OverflowError ∨ e = ZeroDivisionError
  ∨ e = ImagingError.
Proof.
  unfold composed_png.
  destruct (target_logo_size _ _ _) as [[tw th]|e'] eqn:Ht;
    cbn [mbind result_bind].
  - intros Hr. repeat case_match; simplify_eq; auto.
  - intros [= <-]. apply target_logo_size_raises in Ht. tauto.
Qed.

(** The only step that raises [InvalidParameter] is the check of the
    position. *)
Lemma overlay_result_invalid_parameter w rq :
  overlay_result w rq = Raise (HTTPException 400 InvalidParameter) →
  require_token (env w) (authorization rq) = Ok tt →
  Str.lower (Str.strip
    (Str.or_else (position rq) (DEFAULT_POSITION (env w)))) ∉ POSITIONS.
Proof.
  unfold overlay_result. intros Hr Ha. rewrite Ha in Hr.
  cbn [mbind result_bind] in Hr.
  destruct (overlay_params (env w) rq) as [p|e] eqn:Hp;
    cbn [mbind result_bind] in Hr.
  - exfalso.
    destruct (resolved_base w rq) as [B|e] eqn:HB;
      cbn [mbind result_bind] in Hr.
    + destruct (resolved_logo w (logo_url rq)) as [L|e] eqn:HL;
        cbn [mbind result_bind] in Hr.
      * destruct (composed_png p B L) as [png|e] eqn:HC;
          cbn [mbind result_bind] in Hr; [discriminate|].
        injection Hr as ->. apply composed_png_raises in HC.
        destruct HC as [?|[?|[?|?]]]; discriminate.
      * injection Hr as ->. apply resolved_logo_raises in HL.
        destruct HL as [?|[?|[?|?]]]; discriminate.
    + injection Hr as ->. apply resolved_base_raises in HB.
      destruct HB as (d & [= <-] & Hd & _). done.
  - injection Hr as ->.
    apply overlay_params_raises in Hp as [?|[_ ?]]; [discriminate|done].
Qed.

Lemma require_token_raises cfg auth e :
  require_token cfg auth = Raise e →
  e = HTTPException 401 Unauthenticated ∨ e = HTTPException 403 Forbidden.
Proof.
  unfold require_token. intros Hr.
  repeat case_match; simplify_eq; auto.
Qed.

(** Every location the handler reads holds an image it has allocated: no run
    ends in [ReferenceError]. *)
Lemma overlay_logo_no_reference_error w rq s :
  fst (overlay_logo w rq s) ≠ Raise ReferenceError.
Proof.
  rewrite overlay_logo_run. unfold overlay_result. intros Hr.
  destruct (require_token (env w) (authorization rq)) as [[]|e] eqn:Ha;
    cbn [mbind result_bind] in Hr;
    [|injection Hr as ->; apply require_token_raises in Ha as [?|?];
      discriminate].
  destruct (overlay_params (env w) rq) as [p|e] eqn:Hp;
    cbn [mbind result_bind] in Hr;
    [|injection Hr as ->; apply overlay_params_raises in Hp as [?|[? _]];
      discriminate].
  destruct (resolved_base w rq) as [B|e] eqn:HB;
    cbn [mbind result_bind] in Hr;
    [|injection Hr as ->; apply resolved_base_raises in HB as (d & ? & _);
      discriminate].
  destruct (resolved_logo w (logo_url rq)) as [L|e] eqn:HL;
    cbn [mbind result_bind] in Hr;
    [|injection Hr as ->;
      apply resolved_logo_raises in HL as [?|[?|[?|?]]]; discriminate].
  destruct (composed_png p B L) as [png|e] eqn:HC;
    cbn [mbind result_bind] in Hr; [discriminate|].
  injection Hr as ->. apply composed_png_raises in HC.
  destruct HC as [?|[?|[?|?]]]; discriminate.
Qed.

(** C4: a supplied position is trimmed and lower-cased, then looked up in
    [POSITIONS]; once the request is authenticated, a value outside the five
    makes the handler raise HTTP 400 [InvalidParameter], a value inside never
    does, and each of the five names is left as it is by the trimming and the
    lower-casing. *)
Theorem position_validated w rq s p0 :
  position rq = Some p0 → Str.truthy (Some p0) = true →
  require_token (env w) (authorization rq) = Ok tt →
  (Str.lower (Str.strip p0) ∉ POSITIONS →
     overlay_logo w rq s = (Raise (HTTPException 400 InvalidParameter), s))
  ∧ (Str.lower (Str.strip p0) ∈ POSITIONS →
       fst (overlay_logo w rq s) ≠ Raise (HTTPException 400 InvalidParameter))
  ∧ (p0 ∈ POSITIONS →
       Str.lower (Str.strip p0) = p0
       ∧ fst (overlay_logo w rq s)
         ≠ Raise (HTTPException 400 InvalidParameter)).
Proof.
  intros Hpos Htruthy Hauth.
  assert (Str.or_else (position rq) (DEFAULT_POSITION (env w)) = p0) as Hor.
  { rewrite Hpos. destruct p0; [discriminate|reflexivity]. }
  assert (Str.lower (Str.strip p0) ∈ POSITIONS →
          fst (overlay_logo w rq s)
          ≠ Raise (HTTPException 400 InvalidParameter)) as Hin.
  { intros Hp Hr. rewrite overlay_logo_run in Hr.
    apply overlay_result_invalid_parameter in Hr; [|exact Hauth].
    rewrite Hor in Hr. contradiction. }
  split; [|split].
  - intros Hp. unfold overlay_logo. rewrite bind_run, Hauth. unfold lift.
    rewrite bind_run. unfold overlay_params. rewrite Hor.
    rewrite bool_decide_eq_true_2 by exact Hp. reflexivity.
  - exact Hin.
  - intros Hp.
    assert (Str.lower (Str.strip p0) = p0) as Heq.
    { unfold POSITIONS in Hp.
      repeat (apply elem_of_union in Hp as [Hp|Hp]);
        apply elem_of_singleton in Hp; rewrite Hp; reflexivity. }
    split; [exact Heq|]. apply Hin. rewrite Heq. exact Hp.
Qed.

End Handler.

Lemma position_validated_witness :
  (Str.lower (Str.strip " Middle ") ∉ POSITIONS →
     overlay_logo TestLib.world_with_logo
       {| image := Some TestLib.base_png; image_url := None;
          logo_url := None; position := Some " Middle "%string;
          margin_px := None; scale := None; opacity := None;
          authorization := None |} TestLib.empty_state
     = (Raise (HTTPException 400 InvalidParameter), TestLib.empty_state))
  ∧ (Str.lower (Str.strip " Middle ") ∈ POSITIONS →
       fst (overlay_logo TestLib.world_with_logo
              {| image := Some TestLib.base_png; image_url := None;
                 logo_url := None; position := Some " Middle "%string;
                 margin_px := None; scale := None; opacity := None;
                 authorization := None |} TestLib.empty_state)
       ≠ Raise (HTTPException 400 InvalidParameter))
  ∧ (" Middle "%string ∈ POSITIONS →
       Str.lower (Str.strip " Middle ") = " Middle "%string
       ∧ fst (overlay_logo TestLib.world_with_logo
                {| image := Some TestLib.base_png; image_url := None;
                   logo_url := None; position := Some " Middle "%string;
                   margin_px := None; scale := None; opacity := None;
                   authorization := None |} TestLib.empty_state)
         ≠ Raise (HTTPException 400 InvalidParameter)).
Proof.
  apply (position_validated TestLib.world_with_logo _ TestLib.empty_state
           " Middle "); reflexivity.
Defined.

Example position_trimmed :
  Str.lower (Str.strip "  Top_Left ") = "top_left"%string
  ∧ Str.lower (Str.strip "  Top_Left ") ∈ POSITIONS
  ∧ Str.lower (Str.strip "middle") ∉ POSITIONS.
Proof.
  split; [reflexivity|].
  split; apply (bool_decide_unpack _); vm_compute; exact I.
Qed.

(** ** The logo *)

Section Logo.
Context `{ImageLib}.
Implicit Types (s : state) (w : world) (rq : request) (l : loc).

Lemma returning_fst (r : result Image) s e :
  fst (returning r s) = Raise e ↔ r = Raise e.
Proof. destruct r; simpl; split; congruence. Qed.

Lemma returning_ok (r : result Image) s im :
  r = Ok im →
  ∃ l, fst (returning r s) = Ok l ∧ heap (snd (returning r s)) !! l = Some im.
Proof. intros ->. eexists. split; [reflexivity|]. apply lookup_insert_eq. Qed.

Lemma returning_calls (r : result Image) s :
  calls (snd (returning r s)) = calls s.
Proof. destruct r; reflexivity. Qed.

Lemma load_logo_remote_run w url s :
  load_logo_remote w url s = returning (fetched w url) (logged url s).
Proof. apply remote_run. Qed.

(** C5, amended: when a logo URL is given and the fetch or the decoding
    raises, [load_logo] goes on with the local path, from the state the
    attempt left; when no image comes from the URL and the local file exists
    and decodes, [load_logo] returns that image; and [load_logo] raises
    [LogoNotFound] exactly when no image comes from the URL and the local file
    does not exist. *)
Theorem load_logo_fallback w logo_url s :
  (∀ url e, logo_url = Some url → Str.truthy logo_url = true →
     fst (load_logo_remote w url s) = Raise e →
     load_logo w logo_url s
     = load_logo_local w (snd (load_logo_remote w url s)))
  ∧ (∀ b im, remote_logo_fails w logo_url s →
       fs w !! LOGO_PATH (env w) = Some (File b) → Image_open b = Some im →
       ∃ l, fst (load_logo w logo_url s) = Ok l
            ∧ heap (snd (load_logo w logo_url s)) !! l = Some im)
  ∧ (fst (load_logo w logo_url s) = Raise (HTTPException 400 LogoNotFound)
     ↔ remote_logo_fails w logo_url s ∧ fs w !! LOGO_PATH (env w) = None).
Proof.
  assert (∀ url e, logo_url = Some url → Str.truthy logo_url = true →
     fst (load_logo_remote w url s) = Raise e →
     load_logo w logo_url s
     = load_logo_local w (snd (load_logo_remote w url s))) as Hfall.
  { intros url e -> Ht Hr. unfold load_logo. rewrite Ht. unfold try_except.
    destruct (load_logo_remote w url s) as [[l|e'] s']; [discriminate|].
    reflexivity. }
  assert (remote_logo_fails w logo_url s →
          ∃ s', load_logo w logo_url s = load_logo_local w s') as Hlocal.
  { intros Hf. destruct logo_url as [url|] eqn:Hu; [|by exists s].
    destruct (Str.truthy (Some url)) eqn:Ht.
    - destruct (Hf url eq_refl Ht) as [e He].
      eexists. eapply Hfall; eauto.
    - exists s. unfold load_logo. rewrite Ht. reflexivity. }
  split; [exact Hfall|]. split.
  - intros b im Hf Hb Him. destruct (Hlocal Hf) as [s' ->].
    rewrite load_logo_local_run. apply returning_ok.
    unfold local_logo, decode. rewrite Hb, Him. reflexivity.
  - split.
    + intros Hr. rewrite load_logo_run in Hr. apply returning_fst in Hr.
      unfold resolved_logo in Hr. split.
      * intros url -> Ht. destruct url as [|c u]; [discriminate|].
        rewrite load_logo_remote_run.
        destruct (fetched w (String c u)) as [im|e]; [discriminate|].
        exists e. reflexivity.
      * assert (local_logo w = Raise (HTTPException 400 LogoNotFound)) as Hl
          by (repeat case_match; congruence).
        unfold local_logo, decode, open_exn in Hl.
        repeat case_match; congruence.
    + intros [Hf Hnone]. destruct (Hlocal Hf) as [s' ->].
      rewrite load_logo_local_run. apply returning_fst.
      unfold local_logo. rewrite Hnone. reflexivity.
Qed.

(** C10: with the empty string as logo URL, [load_logo] is the local path
    alone: no request goes out, the file at [LOGO_PATH] is opened when there
    is one (whatever is at [LOGO_PATH] is opened, file or not), and
    [LogoNotFound] is raised exactly when there is none. *)
Theorem load_logo_empty_url w s :
  load_logo w (Some EmptyString) s = load_logo_local w s
  ∧ calls (snd (load_logo w (Some EmptyString) s)) = calls s
  ∧ (∀ b, fs w !! LOGO_PATH (env w) = Some (File b) →
       load_logo w (Some EmptyString) s = open_bytes b s)
  ∧ (is_Some (fs w !! LOGO_PATH (env w)) →
       load_logo w (Some EmptyString) s = open_path w (LOGO_PATH (env w)) s)
  ∧ (fst (load_logo w (Some EmptyString) s)
       = Raise (HTTPException 400 LogoNotFound)
     ↔ fs w !! LOGO_PATH (env w) = None).
Proof.
  split; [reflexivity|]. split; [|split; [|split]].
  - rewrite load_logo_run. apply returning_calls.
  - intros b Hb. change (load_logo w (Some EmptyString) s)
      with (load_logo_local w s).
    unfold load_logo_local, path_exists, open_path. rewrite Hb.
    rewrite bool_decide_eq_true_2 by eauto. reflexivity.
  - intros Hsome. change (load_logo w (Some EmptyString) s)
      with (load_logo_local w s).
    unfold load_logo_local, path_exists.
    rewrite bool_decide_eq_true_2 by exact Hsome. reflexivity.
  - rewrite load_logo_run, returning_fst. unfold resolved_logo, local_logo.
    destruct (fs w !! LOGO_PATH (env w)) as [[b|]|]; [| |done].
    + unfold decode, open_exn.
      destruct (Image_open b); [|destruct (Image_open_error b)];
        split; discriminate.
    + split; discriminate.
Qed.

End Logo.

(** C5, as the specification words it, fails where the local file exists but
    is no image: no URL is given, the file is there, and [load_logo] neither
    returns a logo nor raises [LogoNotFound]. *)
Lemma load_logo_local_undecodable :
  path_exists TestLib.world_bad_logo (LOGO_PATH (env TestLib.world_bad_logo))
  = true
  ∧ fst (load_logo TestLib.world_bad_logo None TestLib.empty_state)
    = Raise UnidentifiedImageError
  ∧ ¬ (∀ w logo_url s,
         path_exists w (LOGO_PATH (env w)) = true →
         remote_logo_fails w logo_url s →
         ∃ l, fst (load_logo w logo_url s) = Ok l).
Proof.
  split; [reflexivity|]. split; [reflexivity|].
  intros Hex.
  destruct (Hex TestLib.world_bad_logo None TestLib.empty_state)
    as [l Hl]; [reflexivity|intros url; discriminate|discriminate].
Qed.

Lemma load_logo_fallback_witness :
  ∃ l, fst (load_logo TestLib.world_with_logo (Some "http://cdn/logo.png"%string)
              TestLib.empty_state) = Ok l
       ∧ heap (snd (load_logo TestLib.world_with_logo
                      (Some "http://cdn/logo.png"%string)
                      TestLib.empty_state)) !! l
         = Some {| TestLib.width := 20; TestLib.height := 10;
                   TestLib.pixels := [Byte.x30] |}.
Proof.
  apply (proj1 (proj2 (load_logo_fallback TestLib.world_with_logo
           (Some "http://cdn/logo.png"%string) TestLib.empty_state))
           TestLib.logo_png).
  - intros url [= <-] _. exists RequestException. reflexivity.
  - reflexivity.
  - reflexivity.
Defined.

(** ** The base image, the composite, and the response *)

Section Pipeline.
Context `{ImageLib}.
Implicit Types (s : state) (w : world) (rq : request) (l : loc).

(** C6: a request with neither an upload nor an image URL fails, and no
    request has gone out when it does; once it is authenticated and its
    parameters are accepted, the failure is HTTP 400 [MissingBaseImage],
    raised from the state the handler was entered in. *)
Theorem missing_base_image w rq s :
  image rq = None → Str.truthy (image_url rq) = false →
  calls (snd (overlay_logo w rq s)) = calls s
  ∧ (∃ e, fst (overlay_logo w rq s) = Raise e)
  ∧ (∀ p, require_token (env w) (authorization rq) = Ok tt →
       overlay_params (env w) rq = Ok p →
       overlay_logo w rq s
       = (Raise (HTTPException 400 MissingBaseImage), s)).
Proof.
  intros Himg Hurl.
  assert (overlay_base w rq s
          = (Raise (HTTPException 400 MissingBaseImage), s)) as Hbase.
  { unfold overlay_base. rewrite Himg.
    destruct (image_url rq) as [[|c u]|]; try reflexivity. discriminate. }
  assert (overlay_logo w rq s
          = match require_token (env w) (authorization rq) with
            | Ok _ =>
                match overlay_params (env w) rq with
                | Ok _ => (Raise (HTTPException 400 MissingBaseImage), s)
                | Raise e => (Raise e, s)
                end
            | Raise e => (Raise e, s)
            end) as ->.
  { unfold overlay_logo. rewrite bind_run. unfold lift at 1.
    destruct (require_token (env w) (authorization rq)); [|reflexivity].
    rewrite bind_run. unfold lift at 1.
    destruct (overlay_params (env w) rq); [|reflexivity].
    rewrite bind_run, Hbase. reflexivity. }
  destruct (require_token (env w) (authorization rq)) as [[]|e];
    [destruct (overlay_params (env w) rq) as [p|e]|]; simpl;
    (split; [reflexivity|]); (split; [eauto|]); intros; simplify_eq; done.
Qed.

(** C8: the composite is made on a copy.  With the base and the logo alive,
    every image alive before lines 143-144 run, the base among them, is the
    same after them; on success the composited image is a new one, the base
    with the logo blended in; and the whole of lines 123-151 leaves the images
    alive before it unchanged too. *)
Theorem base_unmodified base logo xy p s B L :
  heap s !! base = Some B → heap s !! logo = Some L →
  (∀ l im, heap s !! l = Some im →
     heap (snd (overlay_composite base logo xy s)) !! l = Some im)
  ∧ (∀ c, fst (overlay_composite base logo xy s) = Ok c →
       heap s !! c = None
       ∧ ∃ C, Image_alpha_composite B L xy = Some C
              ∧ heap (snd (overlay_composite base logo xy s)) !! c = Some C)
  ∧ (∀ l im, heap s !! l = Some im →
       heap (snd (overlay_compose p base logo s)) !! l = Some im).
Proof.
  intros Hb Hl.
  rewrite (overlay_composite_run _ _ xy _ _ _ Hb Hl).
  destruct (overlay_compose_run p _ _ _ _ _ Hb Hl) as (s' & -> & Hext).
  split; [|split; [|exact Hext]].
  - intros l im Hlk.
    destruct (Image_alpha_composite B L xy); simpl;
      apply lookup_insert_fresh, Hlk.
  - intros c. destruct (Image_alpha_composite B L xy) as [C|];
      simpl; [|discriminate]. intros [= <-].
    split; [apply fresh_lookup|]. exists C.
    split; [reflexivity|]. apply lookup_insert_eq.
Qed.

(** The composite raises exactly when the library's [alpha_composite] does:
    the handler checks no coordinate itself. *)
Lemma overlay_composite_raises base logo xy B L s :
  heap s !! base = Some B → heap s !! logo = Some L →
  (∃ e, fst (overlay_composite base logo xy s) = Raise e)
  ↔ Image_alpha_composite B L xy = None.
Proof.
  intros Hb Hl. rewrite (overlay_composite_run _ _ xy _ _ _ Hb Hl).
  destruct (Image_alpha_composite B L xy); simpl; split; try done.
  - intros [e He]. discriminate.
  - eauto.
Qed.

(** The response does not depend on the store the handler is entered in; a
    second run, started in the store the first run left, repeats the first. *)
Lemma overlay_logo_any_store w rq s1 s2 :
  fst (overlay_logo w rq s1) = fst (overlay_logo w rq s2)
  ∧ fst (overlay_logo w rq (snd (overlay_logo w rq s1)))
    = fst (overlay_logo w rq s1).
Proof. rewrite !overlay_logo_run. split; reflexivity. Qed.

(** Two requests with the same parameters whose base and logo decode to the
    same images get the same response, wherever the images came from. *)
Lemma overlay_logo_same_images w1 w2 rq1 rq2 s1 s2 :
  require_token (env w1) (authorization rq1)
  = require_token (env w2) (authorization rq2) →
  overlay_params (env w1) rq1 = overlay_params (env w2) rq2 →
  resolved_base w1 rq1 = resolved_base w2 rq2 →
  resolved_logo w1 (logo_url rq1) = resolved_logo w2 (logo_url rq2) →
  fst (overlay_logo w1 rq1 s1) = fst (overlay_logo w2 rq2 s2).
Proof.
  intros Ha Hp Hb Hl. rewrite !overlay_logo_run. unfold overlay_result.
  rewrite Ha, Hp, Hb, Hl. reflexivity.
Qed.

Lemma held_returning (r : result Image) s : held (returning r s) = r.
Proof.
  destruct r as [im|e]; [|reflexivity].
  unfold returning, alloc, held. simpl. rewrite lookup_insert_eq.
  reflexivity.
Qed.

Lemma held_overlay_base w rq s :
  held (overlay_base w rq s) = resolved_base w rq.
Proof. rewrite overlay_base_run. apply held_returning. Qed.

Lemma held_load_logo w logo_url s :
  held (load_logo w logo_url s) = resolved_logo w logo_url.
Proof. rewrite load_logo_run. apply held_returning. Qed.

(** C9: the response is determined by the outcome of the token check, the
    parameters after defaults and clamping, and the two decoded images.  Take
    two runs of the handler, of two requests, in two worlds and from two
    stores (the second may be the store the first run left).  If the token
    check ends the same way, [overlay_params] gives the same parameters, and
    lines 100-118 and [load_logo] yield the same base image and the same
    logo, then the two runs return the same response, byte for byte, or raise
    the same exception.  Nothing else reaches the output: not the route an
    image came by (upload, URL, local file) nor its encoded bytes, not the
    URLs, not the images already in the store nor the locations of the new
    ones, not the requests sent before. *)
Theorem overlay_logo_deterministic w1 w2 rq1 rq2 s1 s2 t1 t2 :
  require_token (env w1) (authorization rq1)
  = require_token (env w2) (authorization rq2) →
  overlay_params (env w1) rq1 = overlay_params (env w2) rq2 →
  held (overlay_base w1 rq1 s1) = held (overlay_base w2 rq2 s2) →
  held (load_logo w1 (logo_url rq1) t1)
  = held (load_logo w2 (logo_url rq2) t2) →
  fst (overlay_logo w1 rq1 s1) = fst (overlay_logo w2 rq2 s2).
Proof.
  intros Ha Hp Hb Hl. rewrite !held_overlay_base in Hb.
  rewrite !held_load_logo in Hl. rewrite !overlay_logo_run.
  unfold overlay_result. rewrite Ha, Hp, Hb, Hl. reflexivity.
Qed.

End Pipeline.

Lemma missing_base_image_witness :
  calls (snd (overlay_logo TestLib.world_with_logo
                {| image := None; image_url := Some EmptyString;
                   logo_url := Some "http://cdn/logo.png"%string;
                   position := None; margin_px := None; scale := None;
                   opacity := None; authorization := None |}
                TestLib.empty_state)) = calls TestLib.empty_state
  ∧ (∃ e, fst (overlay_logo TestLib.world_with_logo
                 {| image := None; image_url := Some EmptyString;
                    logo_url := Some "http://cdn/logo.png"%string;
                    position := None; margin_px := None; scale := None;
                    opacity := None; authorization := None |}
                 TestLib.empty_state) = Raise e)
  ∧ (∀ p, require_token (env TestLib.world_with_logo) None = Ok tt →
       overlay_params (env TestLib.world_with_logo)
         {| image := None; image_url := Some EmptyString;
            logo_url := Some "http://cdn/logo.png"%string;
            position := None; margin_px := None; scale := None;
            opacity := None; authorization := None |} = Ok p →
       overlay_logo TestLib.world_with_logo
         {| image := None; image_url := Some EmptyString;
            logo_url := Some "http://cdn/logo.png"%string;
            position := None; margin_px := None; scale := None;
            opacity := None; authorization := None |}
         TestLib.empty_state
       = (Raise (HTTPException 400 MissingBaseImage), TestLib.empty_state)).
Proof.
  apply (missing_base_image TestLib.world_with_logo
           {| image := None; image_url := Some EmptyString;
              logo_url := Some "http://cdn/logo.png"%string;
              position := None; margin_px := None; scale := None;
              opacity := None; authorization := None |}
           TestLib.empty_state); reflexivity.
Defined.

Lemma base_unmodified_witness :
  (∀ l im, heap TestLib.two_images !! l = Some im →
     heap (snd (overlay_composite 0%nat 1%nat (-5, 700) TestLib.two_images))
       !! l = Some im)
  ∧ (∀ c, fst (overlay_composite 0%nat 1%nat (-5, 700) TestLib.two_images)
          = Ok c →
       heap TestLib.two_images !! c = None
       ∧ ∃ C, Image_alpha_composite TestLib.base_img TestLib.logo_img (-5, 700)
              = Some C
              ∧ heap (snd (overlay_composite 0%nat 1%nat (-5, 700)
                             TestLib.two_images)) !! c = Some C)
  ∧ (∀ l im, heap TestLib.two_images !! l = Some im →
       heap (snd (overlay_compose
                    {| pos := "center"; margin := 0; sc := Float.f_0_18;
                       op := Float.f_0_95 |}
                    0%nat 1%nat TestLib.two_images)) !! l = Some im).
Proof.
  apply (base_unmodified 0%nat 1%nat (-5, 700)
           {| pos := "center"; margin := 0; sc := Float.f_0_18;
              op := Float.f_0_95 |}
           TestLib.two_images TestLib.base_img TestLib.logo_img);
    reflexivity.
Defined.

Lemma overlay_logo_deterministic_witness :
  fst (overlay_logo TestLib.world_with_logo TestLib.upload
         TestLib.empty_state)
  = fst (overlay_logo TestLib.world_online
           {| image := None;
              image_url := Some "http://host/base.png"%string;
              logo_url := Some "http://cdn/logo.png"%string;
              position := Some " Bottom_Right "%string;
              margin_px := Some 24; scale := None; opacity := None;
              authorization := Some "Bearer x"%string |}
           TestLib.two_images).
Proof.
  apply (overlay_logo_deterministic TestLib.world_with_logo
           TestLib.world_online TestLib.upload _ TestLib.empty_state
           TestLib.two_images TestLib.empty_state TestLib.two_images);
    reflexivity.
Defined.

(** * Further properties of the module *)

(** ** Strings *)

Section StrFacts.
Import Str.

Lemma lstrip_head s :
  lstrip s = EmptyString
  ∨ ∃ c r, lstrip s = String c r ∧ isspace c = false.
Proof.
  induction s as [|c s IH]; simpl; [auto|].
  destruct (isspace c) eqn:Hc; [exact IH|]. right. eauto.
Qed.

Lemma rstrip_head c s :
  isspace c = false → ∃ r, rstrip (String c s) = String c r.
Proof.
  intros Hc. simpl. destruct (rstrip s); rewrite ?Hc; eauto.
Qed.

Lemma rstrip_idem s : rstrip (rstrip s) = rstrip s.
Proof.
  induction s as [|c s IH]; simpl; [reflexivity|].
  destruct (rstrip s) as [|c' r] eqn:Hr.
  - destruct (isspace c) eqn:Hc; simpl; rewrite ?Hc; reflexivity.
  - simpl in IH. simpl. destruct (rstrip r) as [|c'' r'] eqn:Hr'.
    + destruct (isspace c'); [discriminate|]. injection IH as <-.
      reflexivity.
    + rewrite IH. reflexivity.
Qed.

Lemma strip_idem s : strip (strip s) = strip s.
Proof.
  unfold strip. destruct (lstrip_head s) as [->|(c & r & -> & Hc)].
  - reflexivity.
  - destruct (rstrip_head c r Hc) as [r' Hr']. rewrite Hr'.
    simpl lstrip. rewrite Hc, <- Hr'. apply rstrip_idem.
Qed.

Lemma lstrip_empty_rstrip s : lstrip s = EmptyString → rstrip s = EmptyString.
Proof.
  induction s as [|c s IH]; simpl; [reflexivity|].
  destruct (isspace c); [|discriminate]. intros Hs. rewrite (IH Hs).
  reflexivity.
Qed.

Lemma strip_empty s : strip s = EmptyString → lstrip s = EmptyString.
Proof.
  unfold strip. destruct (lstrip_head s) as [->|(c & r & -> & Hc)]; [done|].
  destruct (rstrip_head c r Hc) as [r' ->]. discriminate.
Qed.

Lemma append_nil s : EmptyString +:+ s = s.
Proof. reflexivity. Qed.

Lemma append_cons c a s : String c a +:+ s = String c (a +:+ s).
Proof. reflexivity. Qed.

Lemma lstrip_app a s : lstrip a = EmptyString → lstrip (a +:+ s) = lstrip s.
Proof.
  induction a as [|c a IH]; rewrite ?append_nil, ?append_cons; simpl;
    [reflexivity|].
  destruct (isspace c); [exact IH|discriminate].
Qed.

Lemma rstrip_app s b : rstrip b = EmptyString → rstrip (s +:+ b) = rstrip s.
Proof.
  intros Hb.
  induction s as [|c s IH]; rewrite ?append_nil, ?append_cons; simpl;
    [exact Hb|].
  rewrite IH. reflexivity.
Qed.

Lemma strip_padded a s b :
  strip a = EmptyString → strip b = EmptyString →
  strip (a +:+ s +:+ b) = strip s.
Proof.
  intros Ha Hb. apply strip_empty in Ha. apply strip_empty in Hb.
  unfold strip. rewrite (lstrip_app a _ Ha).
  assert (rstrip (lstrip (s +:+ b)) = rstrip (lstrip s +:+ b)) as ->.
  { induction s as [|c s IH]; rewrite ?append_nil, ?append_cons; simpl.
    - rewrite Hb. symmetry. apply lstrip_empty_rstrip, Hb.
    - destruct (isspace c); [exact IH|rewrite append_cons; reflexivity]. }
  apply rstrip_app, lstrip_empty_rstrip, Hb.
Qed.

Lemma isspace_lower_char c : isspace (lower_char c) = isspace c.
Proof. destruct c as [[] [] [] [] [] [] [] []]; reflexivity. Qed.

Lemma lower_char_idem c : lower_char (lower_char c) = lower_char c.
Proof. destruct c as [[] [] [] [] [] [] [] []]; reflexivity. Qed.

Lemma lower_lstrip s : lower (lstrip s) = lstrip (lower s).
Proof.
  induction s as [|c s IH]; simpl; [reflexivity|].
  rewrite isspace_lower_char. destruct (isspace c); [exact IH|reflexivity].
Qed.

Lemma lower_rstrip s : lower (rstrip s) = rstrip (lower s).
Proof.
  induction s as [|c s IH]; simpl; [reflexivity|].
  rewrite <- IH, isspace_lower_char.
  destruct (rstrip s); simpl; [destruct (isspace c)|]; reflexivity.
Qed.

Lemma lower_strip s : lower (strip s) = strip (lower s).
Proof. unfold strip. rewrite lower_rstrip, lower_lstrip. reflexivity. Qed.

Lemma lower_idem s : lower (lower s) = lower s.
Proof.
  induction s as [|c s IH]; simpl; [reflexivity|].
  rewrite lower_char_idem, IH. reflexivity.
Qed.

Lemma replace_first_prefix old new s :
  String.prefix old s = true →
  replace_first old new s = new +:+ drop (String.length old) s.
Proof. intros Hp. destruct s; cbn [replace_first]; rewrite Hp; reflexivity. Qed.

End StrFacts.

(** ** The bearer token *)

Lemma prefix_append p x : String.prefix p (p +:+ x) = true.
Proof.
  induction p as [|c p IH]; rewrite ?append_nil, ?append_cons; simpl.
  - destruct x; reflexivity.
  - destruct (ascii_dec c c) as [_|Hne]; [exact IH|contradiction].
Qed.

Lemma drop_append p x : Str.drop (String.length p) (p +:+ x) = x.
Proof.
  induction p as [|c p IH]; rewrite ?append_nil, ?append_cons; simpl;
    [reflexivity|exact IH].
Qed.

(** [require_token] by cases, with the replacement of the prefix worked
    out: past [startswith], the first "Bearer " is the first seven
    characters. *)
Lemma require_token_cases cfg auth :
  require_token cfg auth
  = match RUNNER_TOKEN cfg, auth with
    | EmptyString, _ => Ok tt
    | _, None => Raise (HTTPException 401 Unauthenticated)
    | _, Some a =>
        if Str.startswith a "Bearer " then
          if decide (Str.strip (Str.drop 7 a) = RUNNER_TOKEN cfg)
          then Ok tt else Raise (HTTPException 403 Forbidden)
        else Raise (HTTPException 401 Unauthenticated)
    end.
Proof.
  unfold require_token.
  destruct (RUNNER_TOKEN cfg) as [|c t]; [reflexivity|].
  cbn [Str.truthy negb]. destruct auth as [a|]; [|reflexivity].
  destruct (Str.startswith a "Bearer ") eqn:Hp;
    [|rewrite orb_true_r; reflexivity].
  assert (Str.truthy (Some a) = true) as ->
    by (destruct a; [discriminate Hp|reflexivity]).
  cbn [negb orb]. unfold Str.startswith in Hp.
  rewrite (replace_first_prefix _ _ _ Hp), append_nil.
  change (String.length "Bearer ") with 7%nat.
  case_bool_decide; destruct (decide _); done.
Qed.

(** X1: [require_token] lets a request through exactly when no token is
    configured, or the header starts with "Bearer " and what follows, trimmed,
    is the configured token; it raises 401 exactly when a token is configured
    and the header is absent or does not start with "Bearer ", and 403
    exactly when the header has the prefix and the trimmed rest differs from
    the token. *)
Theorem require_token_outcomes cfg auth :
  (require_token cfg auth = Ok tt
   ↔ RUNNER_TOKEN cfg = EmptyString
     ∨ ∃ a, auth = Some a ∧ Str.startswith a "Bearer " = true
            ∧ Str.strip (Str.drop 7 a) = RUNNER_TOKEN cfg)
  ∧ (require_token cfg auth = Raise (HTTPException 401 Unauthenticated)
     ↔ RUNNER_TOKEN cfg ≠ EmptyString
       ∧ ∀ a, auth = Some a → Str.startswith a "Bearer " = false)
  ∧ (require_token cfg auth = Raise (HTTPException 403 Forbidden)
     ↔ RUNNER_TOKEN cfg ≠ EmptyString
       ∧ ∃ a, auth = Some a ∧ Str.startswith a "Bearer " = true
              ∧ Str.strip (Str.drop 7 a) ≠ RUNNER_TOKEN cfg).
Proof.
  rewrite require_token_cases.
  destruct (RUNNER_TOKEN cfg) as [|c t] eqn:Htok.
  { repeat split; try done; auto; intros [? _]; done. }
  destruct auth as [a|].
  - destruct (Str.startswith a "Bearer ") eqn:Hp;
      [destruct (decide _) as [Heq|Hne]|].
    + repeat split; try done.
      * intros _. right. exists a. done.
      * intros [_ Hn]. specialize (Hn a eq_refl). congruence.
      * intros (_ & a' & [= <-] & _ & Hne). done.
    + repeat split; try done.
      * intros [?|(a' & [= <-] & _ & ?)]; done.
      * intros [_ Hn]. specialize (Hn a eq_refl). congruence.
      * exists a. done.
    + repeat split; try done.
      * intros [?|(a' & [= <-] & ? & _)]; congruence.
      * intros a' [= <-]. done.
      * intros (_ & a' & [= <-] & ? & _). congruence.
  - repeat split; try done.
    + intros [?|(a' & ? & _)]; done.
    + intros (_ & a' & ? & _). done.
Qed.

(** X2: a configured token without surrounding whitespace is accepted in a
    header "Bearer " followed by the token, with any whitespace around the
    token; a configured token with leading or trailing whitespace is matched
    by no header at all, since the header's value is trimmed before the
    comparison. *)
Theorem require_token_round_trip cfg t :
  RUNNER_TOKEN cfg = t → t ≠ EmptyString →
  (Str.strip t = t →
     ∀ a b, Str.strip a = EmptyString → Str.strip b = EmptyString →
       require_token cfg (Some ("Bearer " +:+ a +:+ t +:+ b)) = Ok tt)
  ∧ (Str.strip t ≠ t → ∀ auth, require_token cfg auth ≠ Ok tt).
Proof.
  intros Htok Hne. split.
  - intros Hs a b Ha Hb. rewrite require_token_cases, Htok.
    destruct t as [|c t']; [done|]. unfold Str.startswith.
    rewrite prefix_append.
    change 7%nat with (String.length "Bearer "). rewrite drop_append.
    rewrite strip_padded, Hs by assumption.
    destruct (decide _); done.
  - intros Hs auth. rewrite require_token_cases, Htok.
    destruct t as [|c t']; [done|]. destruct auth as [a|]; [|done].
    destruct (Str.startswith a "Bearer "); [|done].
    destruct (decide _) as [Heq|]; [|done].
    exfalso. apply Hs. rewrite <- Heq. apply strip_idem.
Qed.

Lemma require_token_round_trip_witness :
  (Str.strip "s3cret" = "s3cret"%string →
     ∀ a b, Str.strip a = EmptyString → Str.strip b = EmptyString →
       require_token
         {| RUNNER_TOKEN := "s3cret"; DEFAULT_POSITION := "center";
            DEFAULT_MARGIN_PX := None; DEFAULT_SCALE := None;
            DEFAULT_OPACITY := None; LOGO_PATH := "logo.png" |}
         (Some ("Bearer " +:+ a +:+ "s3cret" +:+ b)) = Ok tt)
  ∧ (Str.strip "s3cret" ≠ "s3cret"%string →
       ∀ auth,
         require_token
           {| RUNNER_TOKEN := "s3cret"; DEFAULT_POSITION := "center";
              DEFAULT_MARGIN_PX := None; DEFAULT_SCALE := None;
              DEFAULT_OPACITY := None; LOGO_PATH := "logo.png" |} auth
         ≠ Ok tt).
Proof.
  apply (require_token_round_trip
           {| RUNNER_TOKEN := "s3cret"; DEFAULT_POSITION := "center";
              DEFAULT_MARGIN_PX := None; DEFAULT_SCALE := None;
              DEFAULT_OPACITY := None; LOGO_PATH := "logo.png" |} "s3cret");
    [reflexivity|discriminate].
Defined.

(** ** The parameters *)

Lemma clamp_float_of_nan (value lo hi : float) :
  Float.is_nan value = true → clamp_float value lo hi = value.
Proof. destruct value; try discriminate. reflexivity. Qed.

(** X3: between bounds lo <= hi, [clamp_float] maps every value that is not a
    NaN into [lo, hi], returns a value of [lo, hi] as it is, and clamping
    twice is clamping once (for a NaN too). *)
Theorem clamp_float_clamps (value lo hi : float) :
  Float.leb lo hi = true →
  (Float.is_nan value = false →
     Float.leb lo (clamp_float value lo hi) = true
     ∧ Float.leb (clamp_float value lo hi) hi = true)
  ∧ (Float.leb lo value = true → Float.leb value hi = true →
     clamp_float value lo hi = value)
  ∧ clamp_float (clamp_float value lo hi) lo hi = clamp_float value lo hi.
Proof.
  intros Hlh. split; [|split].
  - intros Hv. apply clamp_float_in_range; assumption.
  - apply clamp_float_id.
  - destruct (Float.is_nan value) eqn:Hv.
    + rewrite !(clamp_float_of_nan value) by exact Hv. reflexivity.
    + destruct (clamp_float_in_range value lo hi Hv Hlh).
      apply clamp_float_id; assumption.
Qed.

Lemma clamp_float_clamps_witness :
  (Float.is_nan (Float.of_ratio 3 2) = false →
     Float.leb Float.f_0_03
       (clamp_float (Float.of_ratio 3 2) Float.f_0_03 Float.f_0_80) = true
     ∧ Float.leb (clamp_float (Float.of_ratio 3 2) Float.f_0_03 Float.f_0_80)
         Float.f_0_80 = true)
  ∧ (Float.leb Float.f_0_03 (Float.of_ratio 3 2) = true →
     Float.leb (Float.of_ratio 3 2) Float.f_0_80 = true →
     clamp_float (Float.of_ratio 3 2) Float.f_0_03 Float.f_0_80
     = Float.of_ratio 3 2)
  ∧ clamp_float (clamp_float (Float.of_ratio 3 2) Float.f_0_03 Float.f_0_80)
      Float.f_0_03 Float.f_0_80
    = clamp_float (Float.of_ratio 3 2) Float.f_0_03 Float.f_0_80.
Proof.
  apply (clamp_float_clamps (Float.of_ratio 3 2) Float.f_0_03 Float.f_0_80).
  reflexivity.
Defined.

Lemma clamp_float_not_nan (value lo hi : float) :
  Float.is_nan (clamp_float value lo hi) = false → Float.is_nan value = false.
Proof.
  destruct (Float.is_nan value) eqn:Hv; [|done].
  rewrite (clamp_float_of_nan _ _ _ Hv), Hv. done.
Qed.

(** X4: every parameter set [overlay_params] accepts is normalised, whether
    a value came from the request or from the environment: the position is
    one of the five anchors, the margin is not negative, and the scale and
    the opacity, unless they are NaN, lie in [0.03, 0.80] and [0.05, 1.0]. *)
Theorem overlay_params_normalised cfg rq p :
  overlay_params cfg rq = Ok p →
  pos p ∈ POSITIONS ∧ 0 <= margin p
  ∧ (Float.is_nan (sc p) = false →
     Float.leb Float.f_0_03 (sc p) = true
     ∧ Float.leb (sc p) Float.f_0_80 = true)
  ∧ (Float.is_nan (op p) = false →
     Float.leb Float.f_0_05 (op p) = true
     ∧ Float.leb (op p) Float.f_1_0 = true).
Proof.
  unfold overlay_params. case_bool_decide as Hpos; [discriminate|].
  cbn [mbind result_bind].
  destruct (match margin_px rq with Some _ => _ | None => _ end) as [m|];
    [|discriminate]. cbn [mbind result_bind].
  destruct (match scale rq with Some _ => _ | None => _ end) as [x|];
    [|discriminate]. cbn [mbind result_bind].
  destruct (match opacity rq with Some _ => _ | None => _ end) as [o|];
    [|discriminate]. cbn [mbind result_bind].
  intros [= <-]. cbn [pos margin sc op].
  split; [exact Hpos|].
  split; [destruct (Z.ltb_spec m 0); lia|].
  split; intros Hn; apply clamp_float_not_nan in Hn;
    apply clamp_float_in_range; done.
Qed.

Lemma overlay_params_normalised_witness :
  pos {| pos := "top_left"; margin := 0; sc := Float.f_0_80;
         op := Float.f_0_05 |} ∈ POSITIONS
  ∧ 0 <= margin {| pos := "top_left"; margin := 0; sc := Float.f_0_80;
                   op := Float.f_0_05 |}
  ∧ (Float.is_nan (sc {| pos := "top_left"; margin := 0; sc := Float.f_0_80;
                         op := Float.f_0_05 |}) = false →
     Float.leb Float.f_0_03
       (sc {| pos := "top_left"; margin := 0; sc := Float.f_0_80;
              op := Float.f_0_05 |}) = true
     ∧ Float.leb (sc {| pos := "top_left"; margin := 0; sc := Float.f_0_80;
                        op := Float.f_0_05 |}) Float.f_0_80 = true)
  ∧ (Float.is_nan (op {| pos := "top_left"; margin := 0; sc := Float.f_0_80;
                         op := Float.f_0_05 |}) = false →
     Float.leb Float.f_0_05
       (op {| pos := "top_left"; margin := 0; sc := Float.f_0_80;
              op := Float.f_0_05 |}) = true
     ∧ Float.leb (op {| pos := "top_left"; margin := 0; sc := Float.f_0_80;
                        op := Float.f_0_05 |}) Float.f_1_0 = true).
Proof.
  apply (overlay_params_normalised TestLib.default_config
           {| image := None; image_url := None; logo_url := None;
              position := Some " TOP_LEFT"%string; margin_px := Some (-7);
              scale := Some (Float.of_ratio 5 1);
              opacity := Some (S754_zero false);
              authorization := None |}).
  reflexivity.
Defined.

(** X5: [overlay_params] raises HTTP 400 [InvalidParameter] exactly when the
    normalised position is none of the five anchors, whatever the other
    fields and the environment hold; it raises [ValueError] exactly when the
    position is accepted and some field is absent from the request while its
    default in the environment does not parse; it raises nothing else.  A
    default that does not parse harms no request that supplies the field. *)
Theorem overlay_params_errors cfg rq :
  (overlay_params cfg rq = Raise (HTTPException 400 InvalidParameter)
   ↔ Str.lower (Str.strip (Str.or_else (position rq) (DEFAULT_POSITION cfg)))
     ∉ POSITIONS)
  ∧ (overlay_params cfg rq = Raise ValueError
     ↔ Str.lower (Str.strip (Str.or_else (position rq) (DEFAULT_POSITION cfg)))
       ∈ POSITIONS
       ∧ (margin_px rq = None ∧ DEFAULT_MARGIN_PX cfg = None
          ∨ scale rq = None ∧ DEFAULT_SCALE cfg = None
          ∨ opacity rq = None ∧ DEFAULT_OPACITY cfg = None))
  ∧ (∀ e, overlay_params cfg rq = Raise e →
       e = HTTPException 400 InvalidParameter ∨ e = ValueError).
Proof.
  unfold overlay_params, parsed. case_bool_decide as Hpos.
  - repeat split; try done; try naive_solver.
  - cbn [mbind result_bind].
    destruct (margin_px rq) as [m|], (DEFAULT_MARGIN_PX cfg) as [dm|],
      (scale rq) as [x|], (DEFAULT_SCALE cfg) as [dx|],
      (opacity rq) as [o|], (DEFAULT_OPACITY cfg) as [do|];
      cbn [mbind result_bind]; repeat split; try done; naive_solver.
Qed.

(** X13: the position is matched without regard to letter case and to
    whitespace around it: two requests whose positions differ only by
    surrounding whitespace and by the case of letters, and that agree on
    margin, scale and opacity, get the same parameters or the same error. *)
Theorem position_case_and_padding cfg rq rq' s1 s2 a b :
  position rq = Some (a +:+ s1 +:+ b) → position rq' = Some s2 →
  Str.strip a = EmptyString → Str.strip b = EmptyString →
  s1 ≠ EmptyString → s2 ≠ EmptyString →
  Str.lower s1 = Str.lower s2 →
  margin_px rq = margin_px rq' → scale rq = scale rq' →
  opacity rq = opacity rq' →
  overlay_params cfg rq = overlay_params cfg rq'.
Proof.
  intros Hp Hp' Ha Hb Hs1 Hs2 Hl Hm Hx Ho.
  assert (Str.or_else (position rq) (DEFAULT_POSITION cfg)
          = a +:+ s1 +:+ b) as Hor.
  { rewrite Hp. destruct (a +:+ s1 +:+ b) eqn:Happ; [|reflexivity].
    exfalso. destruct a; [|discriminate]. rewrite append_nil in Happ.
    destruct s1; [done|discriminate]. }
  assert (Str.or_else (position rq') (DEFAULT_POSITION cfg) = s2) as Hor'.
  { rewrite Hp'. destruct s2; [done|reflexivity]. }
  unfold overlay_params. rewrite Hor, Hor', Hm, Hx, Ho.
  rewrite (strip_padded a s1 b Ha Hb), !lower_strip, Hl. reflexivity.
Qed.

Lemma position_case_and_padding_witness :
  overlay_params TestLib.default_config
    {| image := None; image_url := None; logo_url := None;
       position := Some ("  " +:+ "Bottom_LEFT" +:+ " ");
       margin_px := Some 3; scale := None; opacity := None;
       authorization := None |}
  = overlay_params TestLib.default_config
      {| image := None; image_url := None; logo_url := None;
         position := Some "bottom_left"%string;
         margin_px := Some 3; scale := None; opacity := None;
         authorization := None |}.
Proof.
  apply (position_case_and_padding TestLib.default_config _ _
           "Bottom_LEFT" "bottom_left" "  " " ");
    first [reflexivity | discriminate].
Defined.

(** ** Effects of the stages *)

Section StageFacts.
Context `{ImageLib}.
Implicit Types (s : state) (w : world) (rq : request) (l : loc).

Lemma keeps_calls_bind {A B} (m : M A) (f : A → M B) :
  keeps_calls m → (∀ a, keeps_calls (f a)) → keeps_calls (m ≫= f).
Proof.
  intros Hm Hf s. rewrite bind_run. specialize (Hm s).
  destruct (m s) as [[a|e] s']; simpl in *; [|exact Hm].
  rewrite Hf. exact Hm.
Qed.

Lemma keeps_calls_ret {A} (a : A) : keeps_calls (mret a).
Proof. intros s. reflexivity. Qed.

Lemma keeps_calls_raise {A} e : keeps_calls (raise (A := A) e).
Proof. intros s. reflexivity. Qed.

Lemma keeps_calls_lift {A} (r : result A) : keeps_calls (lift r).
Proof. intros s. reflexivity. Qed.

Lemma keeps_calls_get l : keeps_calls (get l).
Proof. intros s. unfold get. destruct (heap s !! l); reflexivity. Qed.

Lemma keeps_calls_set l im : keeps_calls (set l im).
Proof. intros s. reflexivity. Qed.

Lemma keeps_calls_alloc im : keeps_calls (alloc im).
Proof. intros s. reflexivity. Qed.

Create HintDb calls discriminated.
Hint Resolve keeps_calls_ret keeps_calls_raise keeps_calls_lift
  keeps_calls_get keeps_calls_set keeps_calls_alloc : calls.

Ltac keeps_calls :=
  repeat first
    [ apply keeps_calls_bind; [|intros]
    | progress auto with calls
    | match goal with
      | |- keeps_calls (let '(_, _) := ?x in _) => destruct x
      | |- keeps_calls (match ?x with _ => _ end) => destruct x
      end ].

Lemma keeps_calls_overlay_compose p base logo :
  keeps_calls (overlay_compose p base logo).
Proof.
  unfold overlay_compose, overlay_composite, size, resize, putalpha_enhanced,
    copy, alpha_composite, save_png.
  keeps_calls.
Qed.

Lemma returning_run (r : result Image) s :
  returning r s
  = match r with
    | Ok im =>
        (Ok (fresh (dom (heap s))),
         {| heap := <[fresh (dom (heap s)) := im]> (heap s);
            calls := calls s |})
    | Raise e => (Raise e, s)
    end.
Proof. destruct r; reflexivity. Qed.

Lemma returning_frame (r : result Image) s l im :
  heap s !! l = Some im → heap (snd (returning r s)) !! l = Some im.
Proof.
  intros Hl. rewrite returning_run. destruct r; simpl; [|exact Hl].
  apply lookup_insert_fresh, Hl.
Qed.

(** The state a run of the handler ends in: the images alive before it are
    unchanged, and the requests sent are those of the stages reached. *)
Lemma overlay_logo_effects w rq s :
  (∀ l im, heap s !! l = Some im →
     heap (snd (overlay_logo w rq s)) !! l = Some im)
  ∧ calls (snd (overlay_logo w rq s))
    = calls s
      ++ match require_token (env w) (authorization rq),
               overlay_params (env w) rq with
         | Ok _, Ok _ =>
             base_urls rq
             ++ match resolved_base w rq with
                | Ok _ => logo_urls rq
                | Raise _ => []
                end
         | _, _ => []
         end.
Proof.
  destruct (overlay_logo w rq s) as [r s'] eqn:Hrun. cbn [snd].
  unfold overlay_logo in Hrun. rewrite bind_run in Hrun.
  unfold lift at 1 in Hrun.
  destruct (require_token (env w) (authorization rq)) as [[]|e];
    [|injection Hrun as <- <-; rewrite app_nil_r; done].
  rewrite bind_run in Hrun. unfold lift at 1 in Hrun.
  destruct (overlay_params (env w) rq) as [p|e];
    [|injection Hrun as <- <-; rewrite app_nil_r; done].
  rewrite bind_run, overlay_base_run in Hrun.
  set (s0 := match image rq, image_url rq with
             | None, Some (String c u) => logged (String c u) s
             | _, _ => s
             end) in Hrun.
  assert (heap s0 = heap s ∧ calls s0 = calls s ++ base_urls rq)
    as [Hh0 Hc0].
  { unfold s0, base_urls.
    destruct (image rq), (image_url rq) as [[|]|]; simpl;
      rewrite ?app_nil_r; done. }
  clearbody s0. rewrite returning_run in Hrun.
  destruct (resolved_base w rq) as [B|e];
    [|injection Hrun as <- <-; rewrite Hh0, Hc0, app_nil_r; done].
  set (base := fresh (dom (heap s0))) in Hrun.
  rewrite bind_run, load_logo_run in Hrun.
  match type of Hrun with
  | context [returning _ ?x] => set (s1 := x) in Hrun
  end.
  assert (heap s1 = <[base := B]> (heap s0)
          ∧ calls s1 = calls s0 ++ logo_urls rq) as [Hh1 Hc1].
  { unfold s1, logo_urls. destruct (logo_url rq) as [[|]|]; simpl;
      rewrite ?app_nil_r; done. }
  clearbody s1.
  assert (∀ l im, heap s !! l = Some im → heap s1 !! l = Some im) as Hext1.
  { intros l im Hl. rewrite Hh1. apply lookup_insert_fresh.
    rewrite Hh0. exact Hl. }
  rewrite returning_run in Hrun.
  destruct (resolved_logo w (logo_url rq)) as [L|e];
    [|injection Hrun as <- <-; rewrite Hc1, Hc0, app_assoc; done].
  set (logo := fresh (dom (heap s1))) in Hrun.
  rewrite bind_run in Hrun.
  set (s2 := {| heap := <[logo := L]> (heap s1); calls := calls s1 |})
    in Hrun.
  assert (heap s2 !! base = Some B) as Hb.
  { simpl. rewrite lookup_insert_ne, Hh1; [apply lookup_insert_eq|].
    intros Heq. pose proof (fresh_lookup (heap s1)) as Hf.
    fold logo in Hf. rewrite Heq, Hh1, lookup_insert_eq in Hf.
    discriminate. }
  assert (heap s2 !! logo = Some L) as Hl by apply lookup_insert_eq.
  pose proof (keeps_calls_overlay_compose p base logo s2) as Hc2.
  destruct (overlay_compose_run p base logo B L s2 Hb Hl)
    as (s3 & Hrun3 & Hext2).
  rewrite Hrun3 in Hc2, Hrun. simpl in Hc2.
  assert (s' = s3) as ->
    by (destruct (composed_png p B L); injection Hrun as _ <-; done).
  split.
  - intros l im Hlk. apply Hext2. simpl. apply lookup_insert_fresh.
    apply Hext1, Hlk.
  - rewrite Hc2, Hc1, Hc0, app_assoc. done.
Qed.

End StageFacts.

(** ** The base image *)

Section BaseImage.
Context `{ImageLib}.
Implicit Types (s : state) (w : world) (rq : request) (l : loc).

(** X6: an upload takes precedence over the image URL and touches no
    network.  Whatever [image_url] and the world hold, the base image of a
    request with an upload is decided by the uploaded bytes alone: empty bytes
    raise HTTP 400 [EmptyUpload], bytes that do not decode raise HTTP 400
    [InvalidImageFormat], both leaving the state as it was, and bytes that
    decode are stored as one new image; no request is sent. *)
Theorem overlay_base_upload w rq s raw :
  image rq = Some raw →
  calls (snd (overlay_base w rq s)) = calls s
  ∧ (raw = [] →
     overlay_base w rq s = (Raise (HTTPException 400 EmptyUpload), s))
  ∧ (raw ≠ [] → Image_open raw = None →
     overlay_base w rq s = (Raise (HTTPException 400 InvalidImageFormat), s))
  ∧ (∀ im, raw ≠ [] → Image_open raw = Some im →
     ∃ l, heap s !! l = None
          ∧ overlay_base w rq s
            = (Ok l, {| heap := <[l := im]> (heap s); calls := calls s |})).
Proof.
  intros Himg. unfold overlay_base. rewrite Himg.
  destruct raw as [|b raw]; [repeat split; done|].
  unfold try_except, open_bytes.
  destruct (Image_open (b :: raw)) as [im|]; repeat split; try done.
  intros im' _ [= <-]. exists (fresh (dom (heap s))).
  split; [apply fresh_lookup|reflexivity].
Qed.

(** X7: without an upload, a non-empty image URL is fetched exactly once.
    The base image is obtained exactly when the exchange completes with a
    status outside 400..599 and a body that decodes; every other outcome
    (no answer, an error status, a body that is no image) is HTTP 400
    [RemoteFetchFailed], with no image stored. *)
Theorem overlay_base_url w rq s url :
  image rq = None → image_url rq = Some url → url ≠ EmptyString →
  calls (snd (overlay_base w rq s)) = calls s ++ [url]
  ∧ ((∃ l, fst (overlay_base w rq s) = Ok l)
     ↔ ∃ resp im, net w !! url = Some resp
                  ∧ ¬ (400 <= status resp < 600)
                  ∧ Image_open (content resp) = Some im)
  ∧ ((∃ l, fst (overlay_base w rq s) = Ok l)
     ∨ overlay_base w rq s
       = (Raise (HTTPException 400 RemoteFetchFailed), logged url s)).
Proof.
  intros Himg Hurl Hne. rewrite overlay_base_run, Himg, Hurl.
  unfold resolved_base. rewrite Himg, Hurl.
  destruct url as [|c u]; [done|]. unfold fetched, decode.
  destruct (net w !! String c u) as [resp|].
  - destruct ((400 <=? status resp) && (status resp <? 600)) eqn:Hst.
    + apply andb_prop in Hst as [?%Z.leb_le ?%Z.ltb_lt].
      simpl. split; [done|]. split; [|right; reflexivity]. split.
      * intros [? ?]. done.
      * intros (resp' & im & [= <-] & Hn & _). lia.
    + assert (¬ (400 <= status resp < 600)) as Hn.
      { intros [?%Z.leb_le ?%Z.ltb_lt]. rewrite andb_false_iff in Hst.
        destruct Hst; congruence. }
      destruct (Image_open (content resp)) as [im|] eqn:Him; simpl.
      * split; [done|]. split; [|left; eauto]. split; eauto.
      * split; [done|]. split; [|right; reflexivity]. split.
        -- intros [? ?]. done.
        -- intros (resp' & im & [= <-] & _ & ?). congruence.
  - simpl. split; [done|]. split; [|right; reflexivity]. split.
    + intros [? ?]. done.
    + intros (resp' & im & ? & _). done.
Qed.

End BaseImage.

Lemma overlay_base_upload_witness :
  calls (snd (overlay_base TestLib.world_online
                {| image := Some TestLib.garbage;
                   image_url := Some "http://host/base.png"%string;
                   logo_url := None; position := None; margin_px := None;
                   scale := None; opacity := None; authorization := None |}
                TestLib.empty_state)) = calls TestLib.empty_state
  ∧ (TestLib.garbage = [] →
     overlay_base TestLib.world_online
       {| image := Some TestLib.garbage;
          image_url := Some "http://host/base.png"%string;
          logo_url := None; position := None; margin_px := None;
          scale := None; opacity := None; authorization := None |}
       TestLib.empty_state
     = (Raise (HTTPException 400 EmptyUpload), TestLib.empty_state))
  ∧ (TestLib.garbage ≠ [] → Image_open TestLib.garbage = None →
     overlay_base TestLib.world_online
       {| image := Some TestLib.garbage;
          image_url := Some "http://host/base.png"%string;
          logo_url := None; position := None; margin_px := None;
          scale := None; opacity := None; authorization := None |}
       TestLib.empty_state
     = (Raise (HTTPException 400 InvalidImageFormat), TestLib.empty_state))
  ∧ (∀ im, TestLib.garbage ≠ [] → Image_open TestLib.garbage = Some im →
     ∃ l, heap TestLib.empty_state !! l = None
          ∧ overlay_base TestLib.world_online
              {| image := Some TestLib.garbage;
                 image_url := Some "http://host/base.png"%string;
                 logo_url := None; position := None; margin_px := None;
                 scale := None; opacity := None; authorization := None |}
              TestLib.empty_state
            = (Ok l, {| heap := <[l := im]> (heap TestLib.empty_state);
                        calls := calls TestLib.empty_state |})).
Proof.
  apply (overlay_base_upload TestLib.world_online
           {| image := Some TestLib.garbage;
              image_url := Some "http://host/base.png"%string;
              logo_url := None; position := None; margin_px := None;
              scale := None; opacity := None; authorization := None |}
           TestLib.empty_state TestLib.garbage).
  reflexivity.
Defined.

Lemma overlay_base_url_witness :
  calls (snd (overlay_base TestLib.world_online
                {| image := None;
                   image_url := Some "http://host/base.png"%string;
                   logo_url := None; position := None; margin_px := None;
                   scale := None; opacity := None; authorization := None |}
                TestLib.empty_state))
  = calls TestLib.empty_state ++ ["http://host/base.png"%string]
  ∧ ((∃ l, fst (overlay_base TestLib.world_online
                  {| image := None;
                     image_url := Some "http://host/base.png"%string;
                     logo_url := None; position := None; margin_px := None;
                     scale := None; opacity := None; authorization := None |}
                  TestLib.empty_state) = Ok l)
     ↔ ∃ resp im,
         net TestLib.world_online !! "http://host/base.png"%string
         = Some resp
         ∧ ¬ (400 <= status resp < 600)
         ∧ Image_open (content resp) = Some im)
  ∧ ((∃ l, fst (overlay_base TestLib.world_online
                  {| image := None;
                     image_url := Some "http://host/base.png"%string;
                     logo_url := None; position := None; margin_px := None;
                     scale := None; opacity := None; authorization := None |}
                  TestLib.empty_state) = Ok l)
     ∨ overlay_base TestLib.world_online
         {| image := None;
            image_url := Some "http://host/base.png"%string;
            logo_url := None; position := None; margin_px := None;
            scale := None; opacity := None; authorization := None |}
         TestLib.empty_state
       = (Raise (HTTPException 400 RemoteFetchFailed),
          logged "http://host/base.png" TestLib.empty_state)).
Proof.
  apply (overlay_base_url TestLib.world_online
           {| image := None;
              image_url := Some "http://host/base.png"%string;
              logo_url := None; position := None; margin_px := None;
              scale := None; opacity := None; authorization := None |}
           TestLib.empty_state "http://host/base.png");
    first [reflexivity | discriminate].
Defined.

(** ** The handler as a whole *)

Section Whole.
Context `{ImageLib}.
Implicit Types (s : state) (w : world) (rq : request) (l : loc).

Lemma resolved_base_raises_one_of w rq e :
  resolved_base w rq = Raise e →
  e = HTTPException 400 EmptyUpload
  ∨ e = HTTPException 400 InvalidImageFormat
  ∨ e = HTTPException 400 RemoteFetchFailed
  ∨ e = HTTPException 400 MissingBaseImage.
Proof.
  unfold resolved_base. intros Hr. repeat case_match; simplify_eq; auto.
Qed.

(** The exception a failed run ends in, by the stage that raised it. *)
Lemma overlay_result_raises w rq e :
  overlay_result w rq = Raise e →
  require_token (env w) (authorization rq) = Raise e
  ∨ overlay_params (env w) rq = Raise e
  ∨ resolved_base w rq = Raise e
  ∨ resolved_logo w (logo_url rq) = Raise e
  ∨ ∃ p B L, composed_png p B L = Raise e.
Proof.
  unfold overlay_result. intros Hr.
  destruct (require_token (env w) (authorization rq)) as [[]|e1];
    cbn [mbind result_bind] in Hr; [|injection Hr as ->; auto 10].
  destruct (overlay_params (env w) rq) as [p|e1];
    cbn [mbind result_bind] in Hr; [|injection Hr as ->; auto 10].
  destruct (resolved_base w rq) as [B|e1];
    cbn [mbind result_bind] in Hr; [|injection Hr as ->; auto 10].
  destruct (resolved_logo w (logo_url rq)) as [L|e1];
    cbn [mbind result_bind] in Hr; [|injection Hr as ->; auto 10].
  destruct (composed_png p B L) as [png|e1] eqn:HC;
    cbn [mbind result_bind] in Hr; [discriminate|].
  injection Hr as ->. do 4 right. eauto.
Qed.

(** X8: the token is checked before anything else.  When [require_token]
    raises, the handler raises the same exception from the state it was
    entered in: nothing is fetched, nothing decoded.  And the handler answers
    with a status other than 400 (401 or 403) only when the token check
    raised it. *)
Theorem overlay_logo_auth w rq s :
  (∀ e, require_token (env w) (authorization rq) = Raise e →
     overlay_logo w rq s = (Raise e, s))
  ∧ (∀ code d, code ≠ 400 →
       fst (overlay_logo w rq s) = Raise (HTTPException code d) →
       require_token (env w) (authorization rq)
       = Raise (HTTPException code d)).
Proof.
  split.
  - intros e He. unfold overlay_logo. rewrite bind_run. unfold lift at 1.
    rewrite He. reflexivity.
  - intros code d Hcode Hr. rewrite overlay_logo_run in Hr.
    apply overlay_result_raises in Hr
      as [Hr|[Hr|[Hr|[Hr|(p & B & L & Hr)]]]]; [exact Hr| | | |].
    + apply overlay_params_raises in Hr as [?|[? _]]; simplify_eq.
    + apply resolved_base_raises in Hr as (d' & ? & _); simplify_eq.
    + apply resolved_logo_raises in Hr as [?|[?|[?|?]]]; simplify_eq.
    + apply composed_png_raises in Hr as [?|[?|[?|?]]]; simplify_eq.
Qed.

(** X9: the HTTP errors a run can end in, and the one exception it never
    ends in.  An [HTTPException] that leaves the handler carries one of eight
    pairs of status and detail: 401 and 403 from the token check, 400 for the
    position, the empty upload, the upload that does not decode, the base
    image URL that fails, the missing base image and the missing logo.  And a
    failed request never surfaces as a [RequestException]: it is either
    turned into HTTP 400 (base image) or absorbed by the fallback (logo).
    Other exceptions do leave the handler uncaught, such as the one raised by
    opening a local logo that is a directory or no image. *)
Theorem overlay_logo_exceptions w rq s e :
  fst (overlay_logo w rq s) = Raise e →
  e ≠ RequestException
  ∧ ∀ code d, e = HTTPException code d →
      (code, d) ∈ [ (401, Unauthenticated); (403, Forbidden);
                    (400, InvalidParameter); (400, EmptyUpload);
                    (400, InvalidImageFormat); (400, RemoteFetchFailed);
                    (400, MissingBaseImage); (400, LogoNotFound) ].
Proof.
  intros Hr. rewrite overlay_logo_run in Hr.
  apply overlay_result_raises in Hr
    as [Hr|[Hr|[Hr|[Hr|(p & B & L & Hr)]]]].
  - apply require_token_raises in Hr as [->| ->];
      (split; [discriminate|intros code d [= <- <-]; set_solver]).
  - apply overlay_params_raises in Hr as [->|[-> _]];
      (split; [discriminate|intros code d Hd; simplify_eq; set_solver]).
  - apply resolved_base_raises_one_of in Hr as [->|[->|[->| ->]]];
      (split; [discriminate|intros code d [= <- <-]; set_solver]).
  - apply resolved_logo_raises in Hr as [->|[->|[->| ->]]];
      (split; [discriminate|intros code d Hd; simplify_eq; set_solver]).
  - apply composed_png_raises in Hr as [->|[->|[->| ->]]];
      (split; [discriminate|intros code d Hd; simplify_eq]).
Qed.

(** X10: the requests a run sends.  The handler fetches the image URL only
    when there is no upload, then the logo URL, each at most once and in that
    order, and nothing else; the requests of any run are an initial part of
    that list, and a run that succeeds has sent all of it. *)
Theorem overlay_logo_requests w rq s :
  ∃ sent,
    calls (snd (overlay_logo w rq s)) = calls s ++ sent
    ∧ sent `prefix_of` base_urls rq ++ logo_urls rq
    ∧ (∀ r, fst (overlay_logo w rq s) = Ok r →
         sent = base_urls rq ++ logo_urls rq).
Proof.
  destruct (overlay_logo_effects w rq s) as [_ Hc].
  eexists. split; [exact Hc|].
  pose proof (overlay_logo_run w rq s) as Hrun. unfold overlay_result in Hrun.
  destruct (require_token (env w) (authorization rq)) as [[]|e];
    cbn [mbind result_bind] in Hrun;
    [|split; [apply prefix_nil|intros r Hr; congruence]].
  destruct (overlay_params (env w) rq) as [p|e];
    cbn [mbind result_bind] in Hrun;
    [|split; [apply prefix_nil|intros r Hr; congruence]].
  destruct (resolved_base w rq) as [B|e];
    cbn [mbind result_bind] in Hrun.
  - split; [reflexivity|done].
  - split; [|intros r Hr; congruence].
    rewrite app_nil_r. apply prefix_app_r. reflexivity.
Qed.

(** X14: a request changes no image that was alive before it.  Whatever
    the request and however the run ends, every image of the store the handler
    was entered in is in the store it leaves, unchanged. *)
Theorem overlay_logo_frame w rq s l im :
  heap s !! l = Some im →
  heap (snd (overlay_logo w rq s)) !! l = Some im.
Proof. apply (proj1 (overlay_logo_effects w rq s)). Qed.

(** X16: a logo URL that works wins over the local file.  A non-empty logo
    URL is fetched exactly once, whatever comes of it; when the exchange
    completes with a status outside 400..599 and a body that decodes, that
    image is the logo, whether or not a local file exists. *)
Theorem load_logo_remote_first w url s :
  url ≠ EmptyString →
  calls (snd (load_logo w (Some url) s)) = calls s ++ [url]
  ∧ ∀ resp im,
      net w !! url = Some resp → ¬ (400 <= status resp < 600) →
      Image_open (content resp) = Some im →
      ∃ l, heap s !! l = None
           ∧ load_logo w (Some url) s
             = (Ok l, {| heap := <[l := im]> (heap s);
                         calls := calls s ++ [url] |}).
Proof.
  intros Hne. rewrite load_logo_run. destruct url as [|c u]; [done|].
  split.
  - rewrite returning_calls. reflexivity.
  - intros resp im Hnet Hst Him. unfold resolved_logo, fetched, decode.
    rewrite Hnet.
    assert ((400 <=? status resp) && (status resp <? 600) = false) as ->.
    { apply andb_false_iff.
      destruct (Z.leb_spec 400 (status resp)); [|auto].
      destruct (Z.ltb_spec (status resp) 600); [lia|auto]. }
    rewrite Him. exists (fresh (dom (heap s))).
    split; [apply fresh_lookup|reflexivity].
Qed.

(** X15: what lines 123-151 return.  With the base [B] and the logo [L]
    alive, the step returns bytes exactly when the target size is computed,
    the library resizes the logo to it and composites the resized logo, faded
    when the opacity is below 1.0, onto the base at the position computed from
    the base size and the size of the resized logo; the bytes are the PNG
    encoding of that composite. *)
Theorem overlay_compose_returns p base logo B L s png :
  heap s !! base = Some B → heap s !! logo = Some L →
  fst (overlay_compose p base logo s) = Ok png
  ↔ ∃ tw th L1 C,
      target_logo_size (fst (Image_size B)) (sc p) (Image_size L)
      = Ok (tw, th)
      ∧ Image_resize L (tw, th) = Some L1
      ∧ Image_alpha_composite B
          (if Float.ltb (op p) Float.f_1_0 then Image_fade L1 (op p) else L1)
          (compute_position (fst (Image_size B)) (snd (Image_size B))
             (fst (Image_size
                (if Float.ltb (op p) Float.f_1_0 then Image_fade L1 (op p)
                 else L1)))
             (snd (Image_size
                (if Float.ltb (op p) Float.f_1_0 then Image_fade L1 (op p)
                 else L1)))
             (pos p) (margin p))
        = Some C
      ∧ png = Image_save_png C.
Proof.
  intros Hb Hl.
  destruct (overlay_compose_run p base logo B L s Hb Hl) as (s' & -> & _).
  cbn [fst]. unfold composed_png. cbv zeta.
  destruct (target_logo_size _ _ _) as [[tw th]|e];
    cbn [mbind result_bind].
  - destruct (Image_resize L (tw, th)) as [L1|] eqn:HR.
    + destruct (Image_alpha_composite B _ _) as [C|] eqn:HC.
      * split.
        -- intros [= <-]. exists tw, th, L1, C. done.
        -- intros (tw' & th' & L1' & C' & [= <- <-] & HR' & HC' & ->).
           rewrite HR in HR'. injection HR' as <-.
           rewrite HC in HC'. congruence.
      * split; [done|].
        intros (tw' & th' & L1' & C' & [= <- <-] & HR' & HC' & _).
        rewrite HR in HR'. injection HR' as <-.
        rewrite HC in HC'. done.
    + split; [done|].
      intros (? & ? & ? & ? & [= <- <-] & HR' & _).
      rewrite HR in HR'. done.
  - split; [done|]. intros (? & ? & ? & ? & ? & _). done.
Qed.

End Whole.

Lemma overlay_logo_exceptions_witness :
  HTTPException 400 LogoNotFound ≠ RequestException
  ∧ ∀ code d, HTTPException 400 LogoNotFound = HTTPException code d →
      (code, d) ∈ [ (401, Unauthenticated); (403, Forbidden);
                    (400, InvalidParameter); (400, EmptyUpload);
                    (400, InvalidImageFormat); (400, RemoteFetchFailed);
                    (400, MissingBaseImage); (400, LogoNotFound) ].
Proof.
  apply (overlay_logo_exceptions TestLib.world_no_logo TestLib.upload
           TestLib.empty_state).
  reflexivity.
Defined.

Lemma overlay_logo_frame_witness :
  heap (snd (overlay_logo TestLib.world_with_logo TestLib.upload
               TestLib.two_images)) !! 0%nat
  = Some TestLib.base_img.
Proof.
  apply (overlay_logo_frame TestLib.world_with_logo TestLib.upload
           TestLib.two_images 0%nat TestLib.base_img).
  reflexivity.
Defined.

Lemma load_logo_remote_first_witness :
  calls (snd (load_logo TestLib.world_online (Some "http://cdn/logo.png"%string)
                TestLib.empty_state))
  = calls TestLib.empty_state ++ ["http://cdn/logo.png"%string]
  ∧ ∀ resp im,
      net TestLib.world_online !! "http://cdn/logo.png"%string = Some resp →
      ¬ (400 <= status resp < 600) →
      Image_open (content resp) = Some im →
      ∃ l, heap TestLib.empty_state !! l = None
           ∧ load_logo TestLib.world_online
               (Some "http://cdn/logo.png"%string) TestLib.empty_state
             = (Ok l, {| heap := <[l := im]> (heap TestLib.empty_state);
                         calls := calls TestLib.empty_state
                                  ++ ["http://cdn/logo.png"%string] |}).
Proof.
  apply (load_logo_remote_first TestLib.world_online "http://cdn/logo.png"
           TestLib.empty_state).
  discriminate.
Defined.

Lemma overlay_compose_returns_witness :
  fst (overlay_compose
         {| pos := "center"; margin := 0; sc := Float.f_0_18;
            op := Float.f_0_95 |} 0%nat 1%nat TestLib.two_images)
  = Ok [Byte.x89; Byte.xc8; Byte.x64; Byte.x10; Byte.x20; Byte.x52; Byte.x29;
        Byte.x01; Byte.x30]
  ↔ ∃ tw th L1 C,
      target_logo_size (fst (Image_size TestLib.base_img)) Float.f_0_18
        (Image_size TestLib.logo_img) = Ok (tw, th)
      ∧ Image_resize TestLib.logo_img (tw, th) = Some L1
      ∧ Image_alpha_composite TestLib.base_img
          (if Float.ltb Float.f_0_95 Float.f_1_0
           then Image_fade L1 Float.f_0_95 else L1)
          (compute_position (fst (Image_size TestLib.base_img))
             (snd (Image_size TestLib.base_img))
             (fst (Image_size
                (if Float.ltb Float.f_0_95 Float.f_1_0
                 then Image_fade L1 Float.f_0_95 else L1)))
             (snd (Image_size
                (if Float.ltb Float.f_0_95 Float.f_1_0
                 then Image_fade L1 Float.f_0_95 else L1)))
             "center" 0)
        = Some C
      ∧ [Byte.x89; Byte.xc8; Byte.x64; Byte.x10; Byte.x20; Byte.x52;
         Byte.x29; Byte.x01; Byte.x30] = Image_save_png C.
Proof.
  apply (overlay_compose_returns (H := TestLib.lib)
           {| pos := "center"; margin := 0; sc := Float.f_0_18;
              op := Float.f_0_95 |} 0%nat 1%nat
           TestLib.base_img TestLib.logo_img TestLib.two_images);
    reflexivity.
Defined.

(** ** The placement *)

(** X11: an overlay that fits is placed inside the canvas.  For a margin
    that is not negative, an overlay with [logo_w + 2 * m <= base_w] and
    [logo_h + 2 * m <= base_h] lies within the canvas at every anchor, and at
    every anchor but center it keeps at least the margin from all four edges;
    at center the gaps left and right, and above and below, differ by at most
    one pixel, the extra pixel being right and below. *)
Theorem compute_position_inside base_w base_h logo_w logo_h position m x y :
  0 <= m → 0 <= logo_w → 0 <= logo_h →
  logo_w + 2 * m <= base_w → logo_h + 2 * m <= base_h →
  compute_position base_w base_h logo_w logo_h position m = (x, y) →
  (0 <= x ∧ x + logo_w <= base_w ∧ 0 <= y ∧ y + logo_h <= base_h)
  ∧ (position ≠ "center"%string →
     m <= x ∧ x + logo_w + m <= base_w ∧ m <= y ∧ y + logo_h + m <= base_h)
  ∧ (position = "center"%string →
     0 <= (base_w - logo_w - x) - x <= 1
     ∧ 0 <= (base_h - logo_h - y) - y <= 1).
Proof.
  intros Hm Hw Hh Hfw Hfh. unfold compute_position.
  repeat match goal with
    | |- context [String.eqb position ?k] =>
        destruct (String.eqb_spec position k) as [->|?]
    end; intros [= <- <-]; try (repeat split; first [lia | done]).
  pose proof (Z.div_mod (base_w - logo_w) 2 ltac:(lia)).
  pose proof (Z.mod_pos_bound (base_w - logo_w) 2 ltac:(lia)).
  pose proof (Z.div_mod (base_h - logo_h) 2 ltac:(lia)).
  pose proof (Z.mod_pos_bound (base_h - logo_h) 2 ltac:(lia)).
  repeat split; first [lia | done].
Qed.

Lemma compute_position_inside_witness :
  (0 <= 815 ∧ 815 + 180 <= 1000 ∧ 0 <= 5 ∧ 5 + 90 <= 800)
  ∧ ("top_right"%string ≠ "center"%string →
     5 <= 815 ∧ 815 + 180 + 5 <= 1000 ∧ 5 <= 5 ∧ 5 + 90 + 5 <= 800)
  ∧ ("top_right"%string = "center"%string →
     0 <= (1000 - 180 - 815) - 815 <= 1
     ∧ 0 <= (800 - 90 - 5) - 5 <= 1).
Proof.
  apply (compute_position_inside 1000 800 180 90 "top_right" 5 815 5);
    first [lia | reflexivity].
Defined.

(** ** A logo of width zero *)

(** X12: a logo whose width is zero makes lines 123-126 raise
    [ZeroDivisionError], for every base width and every clamped scale: the
    target width is computed, and the ratio then divides by
    [float(logo.size[0])]. *)
Theorem target_logo_size_zero_width base_w (sc : float) ho :
  0 <= base_w < 2 ^ 31 → Float.valid sc →
  Float.leb Float.f_0_03 sc = true → Float.leb sc Float.f_0_80 = true →
  target_logo_size base_w sc (0, ho) = Raise ZeroDivisionError.
Proof.
  intros Hbw Hv Hlo Hhi.
  destruct (scale_below sc Hv Hlo Hhi) as [Hsc Hsc'].
  destruct (of_int_below base_w 31 Hbw ltac:(lia)) as (b & Hb & Hbb).
  pose proof (of_int_nonneg _ _ (proj1 Hbw) Hb) as Hb'.
  pose proof (mul_below 32 0 b sc Hbb Hsc ltac:(lia)) as Hp.
  destruct (to_int_below 33 _ Hp ltac:(lia) (mul_nonneg _ _ Hb' Hsc'))
    as (t & Ht & Htb).
  assert (0 <= Z.max 1 t < 2 ^ 33) as Htw by lia.
  destruct (of_int_below (Z.max 1 t) 33 Htw ltac:(lia)) as (n & Hn & _).
  unfold target_logo_size. cbn [mbind result_bind fst snd].
  rewrite Hb. cbn [mbind result_bind]. rewrite Ht. cbn [mbind result_bind].
  rewrite Hn. reflexivity.
Qed.

Lemma target_logo_size_zero_width_witness :
  target_logo_size 1000 Float.f_0_18 (0, 100) = Raise ZeroDivisionError.
Proof.
  apply (target_logo_size_zero_width 1000 Float.f_0_18 100);
    first [lia | reflexivity].
Defined.
